(** * 8-ball pool: rules engine and table physics

    A shallow embedding of the two C sources of the repository,
    [8 ball/updated.c] (module [Updated]) and [8 ball/previous.c]
    (module [Previous]), and the properties of the pocket scan, the
    turn/rules state machine and the collision arithmetic.

    The C code computes on [float].  The embedding is written once over an
    interface [Scalar] of the arithmetic the code uses and is instantiated
    twice:
    - [binary32] : IEEE-754 single precision, round to nearest even, built
      from the Standard Library's [SpecFloat]; this instance runs the code
      bit for bit on concrete tables;
    - [R] : exact real arithmetic, the arithmetic the float operations round;
      the algebraic identities of the collision resolver and the bound on
      the speed hold in it exactly, and in binary32 up to rounding only.
    What is proved of the code is proved for an arbitrary [Scalar], binary32
    included, unless the statement names [R].

    In [binary32] every operation of a [float] expression is rounded on its
    own (FLT_EVAL_METHOD 0, no fused multiply-add), [int] operands are
    converted exactly, and a decimal literal is the float nearest to it. *)

From Stdlib Require Import ZArith Reals Lra Lia Bool String.
From Stdlib Require Import Floats.SpecFloat.
From stdpp Require Import base list.

Local Open Scope Z_scope.

(** ** The arithmetic of [float] *)

Class Scalar (F : Type) := {
  fadd  : F -> F -> F;
  fsub  : F -> F -> F;
  fmul  : F -> F -> F;
  fdiv  : F -> F -> F;
  fopp  : F -> F;
  fsqrt : F -> F;          (* sqrtf *)
  fabs  : F -> F;          (* fabs *)
  fltb  : F -> F -> bool;  (* a < b *)
  fleb  : F -> F -> bool;  (* a <= b *)
  fint  : Z -> F;          (* conversion of an int operand *)
  flit  : Z -> Z -> F      (* the decimal literal n/d, e.g. 0.985f = flit 985 1000 *)
}.

Declare Scope F_scope.
Delimit Scope F_scope with fl.
Notation "a + b" := (fadd a b) : F_scope.
Notation "a - b" := (fsub a b) : F_scope.
Notation "a * b" := (fmul a b) : F_scope.
Notation "a / b" := (fdiv a b) : F_scope.
Notation "- a" := (fopp a) : F_scope.
Notation "a <? b" := (fltb a b) : F_scope.
Notation "a >? b" := (fltb b a) : F_scope.
Notation "a <=? b" := (fleb a b) : F_scope.

(** IEEE-754 binary32: 24 bits of precision, exponents up to 128. *)
Definition binary32 : Type := spec_float.

Definition b32_of_Z (z : Z) : binary32 := binary_normalize 24 128 z 0 false.

#[export] Instance Scalar_binary32 : Scalar binary32 := {
  fadd := SFadd 24 128;
  fsub := SFsub 24 128;
  fmul := SFmul 24 128;
  fdiv := SFdiv 24 128;
  fopp := SFopp;
  fsqrt := SFsqrt 24 128;
  fabs := SFabs;
  fltb := SFltb;
  fleb := SFleb;
  fint := b32_of_Z;
  flit := fun n d => SFdiv 24 128 (b32_of_Z n) (b32_of_Z d)
}.

(** Exact arithmetic. *)
Definition Rltb (a b : R) : bool := if Rlt_dec a b then true else false.
Definition Rleb (a b : R) : bool := if Rle_dec a b then true else false.

#[export] Instance Scalar_R : Scalar R := {
  fadd := Rplus;
  fsub := Rminus;
  fmul := Rmult;
  fdiv := Rdiv;
  fopp := Ropp;
  fsqrt := sqrt;
  fabs := Rabs;
  fltb := Rltb;
  fleb := Rleb;
  fint := IZR;
  flit := fun n d => (IZR n / IZR d)%R
}.

(** ** raylib's [Vector2] and [Color] *)

Record Vector2 (F : Type) : Type := mkVector2 { x : F; y : F }.
Arguments mkVector2 {F} _ _.
Arguments x {F} _.
Arguments y {F} _.

Inductive Color : Type :=
  WHITE | BLACK | YELLOW | BLUE | RED | PURPLE | ORANGE | GREEN | MAROON.

(** ** Table constants, shared by both sources *)

Definition MAX_BALLS : nat := 16.
Definition TABLE_WIDTH : Z := 800.
Definition TABLE_HEIGHT : Z := 400.
Definition BALL_RADIUS : Z := 15.
Definition POCKET_RADIUS : Z := 28.
Definition RAIL_WIDTH : Z := 40.

Section Geometry.
Context {F : Type} `{Scalar F}.
Local Open Scope F_scope.

Definition FRICTION : F := flit 985 1000.
Definition MIN_VELOCITY : F := flit 6 100.
Definition MAX_POWER_PIXELS : F := fint 160.
Definition MAX_SHOT_SPEED : F := fint 22.
Definition MAX_BALL_SPEED : F := fint 26.

Definition zeroV : Vector2 F := mkVector2 (fint 0) (fint 0).

(** [Distance] of updated.c, [dist] of previous.c. *)
Definition Distance (a b : Vector2 F) : F :=
  let dx := x a - x b in
  let dy := y a - y b in
  fsqrt (dx * dx + dy * dy).

(** The six pocket centres, in the order of the [pockets] array. *)
Definition pockets : list (Vector2 F) :=
  [ mkVector2 (fint RAIL_WIDTH) (fint RAIL_WIDTH);
    mkVector2 (fint TABLE_WIDTH * flit 5 10) (fint RAIL_WIDTH);
    mkVector2 (fint (TABLE_WIDTH - RAIL_WIDTH)) (fint RAIL_WIDTH);
    mkVector2 (fint RAIL_WIDTH) (fint (TABLE_HEIGHT - RAIL_WIDTH));
    mkVector2 (fint TABLE_WIDTH * flit 5 10) (fint (TABLE_HEIGHT - RAIL_WIDTH));
    mkVector2 (fint (TABLE_WIDTH - RAIL_WIDTH)) (fint (TABLE_HEIGHT - RAIL_WIDTH)) ].

(** The inner loop [for (p = 0; p < 6; p++) if (Distance(..) < POCKET_RADIUS)
    { ...; break; }]: the body does not depend on [p], so the loop is the
    test "some pocket captures the ball", tried in array order. *)
Definition inPocket (pos : Vector2 F) : bool :=
  existsb (fun pk => Distance pos pk <? fint POCKET_RADIUS) pockets.

(** The cue ball's rack position, [{TABLE_WIDTH*0.25f, TABLE_HEIGHT*0.5f}]. *)
Definition cueStart : Vector2 F :=
  mkVector2 (fint TABLE_WIDTH * flit 25 100) (fint TABLE_HEIGHT * flit 5 10).
End Geometry.

(** ** updated.c *)

Module Updated.

Inductive BallType : Type := BALL_CUE | BALL_SOLID | BALL_STRIPE | BALL_EIGHT.
Inductive GameState : Type :=
GAME_START | GAME_PLAYING | GAME_SCRATCH | GAME_WON | GAME_LOST.
Inductive PlayerType : Type := PLAYER_NONE | PLAYER_SOLIDS | PLAYER_STRIPES.

#[export] Instance BallType_eq_dec : EqDecision BallType.
Proof. solve_decision. Defined.
#[export] Instance GameState_eq_dec : EqDecision GameState.
Proof. solve_decision. Defined.
#[export] Instance PlayerType_eq_dec : EqDecision PlayerType.
Proof. solve_decision. Defined.

Module Ball.
Record t (F : Type) : Type := mk {
  position : Vector2 F;
  velocity : Vector2 F;
  color : Color;
  type : BallType;
  number : Z;
  pocketed : bool;
  isStriped : bool
}.
Arguments mk {F} _ _ _ _ _ _ _.
Arguments position {F} _.
Arguments velocity {F} _.
Arguments color {F} _.
Arguments type {F} _.
Arguments number {F} _.
Arguments pocketed {F} _.
Arguments isStriped {F} _.

Definition set_position {F} (b : t F) (p : Vector2 F) : t F :=
  mk p (velocity b) (color b) (type b) (number b) (pocketed b) (isStriped b).
Definition set_velocity {F} (b : t F) (v : Vector2 F) : t F :=
  mk (position b) v (color b) (type b) (number b) (pocketed b) (isStriped b).
Definition set_pocketed {F} (b : t F) (p : bool) : t F :=
  mk (position b) (velocity b) (color b) (type b) (number b) p (isStriped b).
End Ball.

Module Player.
Record t : Type := mk {
  type : PlayerType;
  ballsRemaining : Z;
  name : string
}.
End Player.

Record Game (F : Type) : Type := mkGame {
balls : list (Ball.t F);             (* Ball balls[MAX_BALLS] *)
players : Player.t * Player.t;       (* Player players[2] *)
currentPlayer : Z;
state : GameState;
cueBallPos : Vector2 F;
power : F;
aiming : bool;
ballsMoving : bool;
firstShot : bool;
assignedTypes : bool;
statusMessage : string;
dragStart : Vector2 F;
stickPullPixels : F;
stickLength : F;
stickRecoil : bool;
recoilTimer : F
}.
Arguments mkGame {F} _ _ _ _ _ _ _ _ _ _ _ _ _ _ _ _.
Arguments balls {F} _.
Arguments players {F} _.
Arguments currentPlayer {F} _.
Arguments state {F} _.
Arguments cueBallPos {F} _.
Arguments power {F} _.
Arguments aiming {F} _.
Arguments ballsMoving {F} _.
Arguments firstShot {F} _.
Arguments assignedTypes {F} _.
Arguments statusMessage {F} _.
Arguments dragStart {F} _.
Arguments stickPullPixels {F} _.
Arguments stickLength {F} _.
Arguments stickRecoil {F} _.
Arguments recoilTimer {F} _.

(** [players[i]] for the indices 0 and 1 of the two-element array.
  [currentPlayer] is 0 or 1 in every state the program reaches
  ([currentPlayer_range] below); reads at other indices are outside the
  array in C and are not given a meaning of their own here. *)
Definition player_at (ps : Player.t * Player.t) (i : Z) : Player.t :=
if i =? 0 then fst ps else snd ps.

Section Setters.
Context {F : Type}.
Implicit Type g : Game F.

Definition set_balls g v := mkGame v (players g) (currentPlayer g) (state g)
  (cueBallPos g) (power g) (aiming g) (ballsMoving g) (firstShot g)
  (assignedTypes g) (statusMessage g) (dragStart g) (stickPullPixels g)
  (stickLength g) (stickRecoil g) (recoilTimer g).
Definition set_currentPlayer g v := mkGame (balls g) (players g) v (state g)
  (cueBallPos g) (power g) (aiming g) (ballsMoving g) (firstShot g)
  (assignedTypes g) (statusMessage g) (dragStart g) (stickPullPixels g)
  (stickLength g) (stickRecoil g) (recoilTimer g).
Definition set_state g v := mkGame (balls g) (players g) (currentPlayer g) v
  (cueBallPos g) (power g) (aiming g) (ballsMoving g) (firstShot g)
  (assignedTypes g) (statusMessage g) (dragStart g) (stickPullPixels g)
  (stickLength g) (stickRecoil g) (recoilTimer g).
Definition set_cueBallPos g v := mkGame (balls g) (players g) (currentPlayer g)
  (state g) v (power g) (aiming g) (ballsMoving g) (firstShot g)
  (assignedTypes g) (statusMessage g) (dragStart g) (stickPullPixels g)
  (stickLength g) (stickRecoil g) (recoilTimer g).
Definition set_power g v := mkGame (balls g) (players g) (currentPlayer g)
  (state g) (cueBallPos g) v (aiming g) (ballsMoving g) (firstShot g)
  (assignedTypes g) (statusMessage g) (dragStart g) (stickPullPixels g)
  (stickLength g) (stickRecoil g) (recoilTimer g).
Definition set_aiming g v := mkGame (balls g) (players g) (currentPlayer g)
  (state g) (cueBallPos g) (power g) v (ballsMoving g) (firstShot g)
  (assignedTypes g) (statusMessage g) (dragStart g) (stickPullPixels g)
  (stickLength g) (stickRecoil g) (recoilTimer g).
Definition set_ballsMoving g v := mkGame (balls g) (players g) (currentPlayer g)
  (state g) (cueBallPos g) (power g) (aiming g) v (firstShot g)
  (assignedTypes g) (statusMessage g) (dragStart g) (stickPullPixels g)
  (stickLength g) (stickRecoil g) (recoilTimer g).
Definition set_firstShot g v := mkGame (balls g) (players g) (currentPlayer g)
  (state g) (cueBallPos g) (power g) (aiming g) (ballsMoving g) v
  (assignedTypes g) (statusMessage g) (dragStart g) (stickPullPixels g)
  (stickLength g) (stickRecoil g) (recoilTimer g).
Definition set_statusMessage g v := mkGame (balls g) (players g) (currentPlayer g)
  (state g) (cueBallPos g) (power g) (aiming g) (ballsMoving g) (firstShot g)
  (assignedTypes g) v (dragStart g) (stickPullPixels g)
  (stickLength g) (stickRecoil g) (recoilTimer g).
Definition set_dragStart g v := mkGame (balls g) (players g) (currentPlayer g)
  (state g) (cueBallPos g) (power g) (aiming g) (ballsMoving g) (firstShot g)
  (assignedTypes g) (statusMessage g) v (stickPullPixels g)
  (stickLength g) (stickRecoil g) (recoilTimer g).
Definition set_stickPullPixels g v := mkGame (balls g) (players g) (currentPlayer g)
  (state g) (cueBallPos g) (power g) (aiming g) (ballsMoving g) (firstShot g)
  (assignedTypes g) (statusMessage g) (dragStart g) v
  (stickLength g) (stickRecoil g) (recoilTimer g).
Definition set_stickRecoil g v := mkGame (balls g) (players g) (currentPlayer g)
  (state g) (cueBallPos g) (power g) (aiming g) (ballsMoving g) (firstShot g)
  (assignedTypes g) (statusMessage g) (dragStart g) (stickPullPixels g)
  (stickLength g) v (recoilTimer g).
Definition set_recoilTimer g v := mkGame (balls g) (players g) (currentPlayer g)
  (state g) (cueBallPos g) (power g) (aiming g) (ballsMoving g) (firstShot g)
  (assignedTypes g) (statusMessage g) (dragStart g) (stickPullPixels g)
  (stickLength g) (stickRecoil g) v.
End Setters.

(** The pointer and keyboard state raylib reports for one frame. *)
Record Input (F : Type) : Type := mkInput {
keyR : bool;             (* IsKeyPressed(KEY_R) *)
mousePos : Vector2 F;    (* GetMousePosition() *)
mousePressed : bool;     (* IsMouseButtonPressed(MOUSE_LEFT_BUTTON) *)
mouseDown : bool;        (* IsMouseButtonDown(MOUSE_LEFT_BUTTON) *)
mouseReleased : bool     (* IsMouseButtonReleased(MOUSE_LEFT_BUTTON) *)
}.
Arguments mkInput {F} _ _ _ _ _.
Arguments keyR {F} _.
Arguments mousePos {F} _.
Arguments mousePressed {F} _.
Arguments mouseDown {F} _.
Arguments mouseReleased {F} _.

Section Code.
Context {F : Type} `{Scalar F}.
Local Open Scope F_scope.
Implicit Type g : Game F.
Implicit Type b : Ball.t F.

(** *** ResetBalls and InitGame

    Every field of the sixteen balls and of the game is assigned, so the
    result does not depend on the previous contents of [*game]. *)

Definition solidColors : list Color :=
  [YELLOW; BLUE; RED; PURPLE; ORANGE; GREEN; MAROON].
Definition stripeColors : list Color :=
  [YELLOW; BLUE; RED; PURPLE; ORANGE; GREEN; MAROON].

Definition triangleStart : Vector2 F :=
  mkVector2 (fint TABLE_WIDTH * flit 72 100) (fint TABLE_HEIGHT * flit 5 10).

Definition cueBall : Ball.t F :=
  Ball.mk cueStart zeroV WHITE BALL_CUE 0 false false.

(** The body of the rack loops for ball [idx] at [row], [col]. *)
Definition rackBall (idx row col : Z) : Ball.t F :=
  let offsetX := fint row * (fint (BALL_RADIUS * 2) * flit 88 100) in
  let offsetY := fint (col * (BALL_RADIUS * 2) - row * BALL_RADIUS)%Z in
  let pos := mkVector2 (x triangleStart + offsetX) (y triangleStart + offsetY) in
  if (idx =? 8)%Z then Ball.mk pos zeroV BLACK BALL_EIGHT idx false false
  else if (idx <=? 7)%Z then
    Ball.mk pos zeroV (nth (Z.to_nat (idx - 1)) solidColors WHITE)
            BALL_SOLID idx false false
  else
    let sidx := (if (idx - 9 <? 0)%Z then 0 else idx - 9)%Z in
    Ball.mk pos zeroV (nth (Z.to_nat sidx) stripeColors WHITE)
            BALL_STRIPE idx false true.

(** [for (col = 0; col <= row; col++) { if (idx >= MAX_BALLS) break; ... idx++; }]
    writing [balls[idx]] for consecutive [idx], i.e. appending. *)
Fixpoint rackRow (row : Z) (cols : list Z) (idx : Z) (acc : list (Ball.t F))
  : Z * list (Ball.t F) :=
  match cols with
  | [] => (idx, acc)
  | col :: cols' =>
      if (idx >=? Z.of_nat MAX_BALLS)%Z then (idx, acc)
      else rackRow row cols' (idx + 1)%Z (acc ++ [rackBall idx row col])
  end.

Fixpoint rackRows (rows : list nat) (idx : Z) (acc : list (Ball.t F))
  : list (Ball.t F) :=
  match rows with
  | [] => acc
  | row :: rows' =>
      let '(idx', acc') :=
        rackRow (Z.of_nat row) (map Z.of_nat (seq 0 (S row))) idx acc in
      rackRows rows' idx' acc'
  end.

Definition ResetBalls : list (Ball.t F) := rackRows (seq 0 5) 1 [cueBall].

Definition InitGame : Game F :=
  {| balls := ResetBalls;
     players := (Player.mk PLAYER_NONE 7 "Player 1",
                 Player.mk PLAYER_NONE 7 "Player 2");
     currentPlayer := 0;
     state := GAME_START;
     cueBallPos := cueStart;     (* game->cueBallPos = game->balls[0].position *)
     power := fint 0;
     aiming := false;
     ballsMoving := false;
     firstShot := true;
     assignedTypes := false;
     statusMessage := "Break shot: click on cue, drag back, release to shoot";
     dragStart := zeroV;         (* not assigned by InitGame; never read before written *)
     stickPullPixels := fint 0;
     stickLength := fint 120;
     stickRecoil := false;
     recoilTimer := fint 0 |}.

(** *** ClampBallSpeed *)
Definition ClampBallSpeed b (maxSpeed : F) : Ball.t F :=
  let sx := x (Ball.velocity b) in
  let sy := y (Ball.velocity b) in
  let mag := fsqrt (sx * sx + sy * sy) in
  if mag >? maxSpeed then
    Ball.set_velocity b
      (mkVector2 ((x (Ball.velocity b) / mag) * maxSpeed)
                 ((y (Ball.velocity b) / mag) * maxSpeed))
  else b.

(** *** ResolveElasticCollision: the two balls are passed by pointer, the
    function returns both. *)
Definition ResolveElasticCollision (a b : Ball.t F) : Ball.t F * Ball.t F :=
  let dx := x (Ball.position b) - x (Ball.position a) in
  let dy := y (Ball.position b) - y (Ball.position a) in
  let dist := fsqrt (dx * dx + dy * dy) in
  if dist <=? flit 1 10000 then (a, b)
  else
    let nx := dx / dist in
    let ny := dy / dist in
    let tx := - ny in
    let ty := nx in
    let va_n := x (Ball.velocity a) * nx + y (Ball.velocity a) * ny in
    let va_t := x (Ball.velocity a) * tx + y (Ball.velocity a) * ty in
    let vb_n := x (Ball.velocity b) * nx + y (Ball.velocity b) * ny in
    let vb_t := x (Ball.velocity b) * tx + y (Ball.velocity b) * ty in
    let va_n_after := vb_n in
    let vb_n_after := va_n in
    (Ball.set_velocity a
       (mkVector2 (va_n_after * nx + va_t * tx) (va_n_after * ny + va_t * ty)),
     Ball.set_velocity b
       (mkVector2 (vb_n_after * nx + vb_t * tx) (vb_n_after * ny + vb_t * ty))).

(** *** CheckCollisions *)

(** The body of the inner loop for the pair [i], [j] ([i < j]); ball [i]
    is known not to be pocketed. *)
Definition collidePair (i j : nat) (bs : list (Ball.t F)) : list (Ball.t F) :=
  match bs !! i, bs !! j with
  | Some bi, Some bj =>
      if Ball.pocketed bj then bs
      else
        let dist := Distance (Ball.position bi) (Ball.position bj) in
        let minDist := fint BALL_RADIUS * fint 2 in
        if (dist <? minDist) && (dist >? flit 1 10000) then
          let overlap := flit 5 10 * (minDist - dist + flit 1 1000) in
          let normal :=
            mkVector2 ((x (Ball.position bj) - x (Ball.position bi)) / dist)
                      ((y (Ball.position bj) - y (Ball.position bi)) / dist) in
          let bi1 := Ball.set_position bi
            (mkVector2 (x (Ball.position bi) - x normal * overlap)
                       (y (Ball.position bi) - y normal * overlap)) in
          let bj1 := Ball.set_position bj
            (mkVector2 (x (Ball.position bj) + x normal * overlap)
                       (y (Ball.position bj) + y normal * overlap)) in
          let '(bi2, bj2) := ResolveElasticCollision bi1 bj1 in
          <[j := ClampBallSpeed bj2 MAX_BALL_SPEED]>
            (<[i := ClampBallSpeed bi2 MAX_BALL_SPEED]> bs)
        else bs
  | _, _ => bs
  end.

(** One iteration of the outer loop: [if (balls[i].pocketed) continue;]
    then the inner loop over [j = i+1 .. MAX_BALLS-1]. *)
Definition collideRow (bs : list (Ball.t F)) (i : nat) : list (Ball.t F) :=
  match bs !! i with
  | Some bi =>
      if Ball.pocketed bi then bs
      else fold_left (fun acc j => collidePair i j acc)
                     (seq (S i) (MAX_BALLS - S i)) bs
  | None => bs
  end.

Definition CheckCollisions g : Game F :=
  set_balls g (fold_left collideRow (seq 0 MAX_BALLS) (balls g)).

(** *** ApplyScratch, CheckWinCondition, NextTurn, AreBallsMoving *)

Definition ApplyScratch g : Game F :=
  let g1 := set_state g GAME_SCRATCH in
  let g2 := set_statusMessage g1 "Scratch! Place cue ball" in
  set_currentPlayer g2 (1 - currentPlayer g2)%Z.

(** The condition shared by the 8-ball branch of [CheckPockets] and by
    [CheckWinCondition]: the player has a group and has cleared it. *)
Definition groupCleared (p : Player.t) : bool :=
  (bool_decide (Player.type p = PLAYER_SOLIDS) && (Player.ballsRemaining p =? 0)%Z)
  || (bool_decide (Player.type p = PLAYER_STRIPES) && (Player.ballsRemaining p =? 0)%Z).

Definition CheckWinCondition g : Game F :=
  let idx := currentPlayer g in
  if groupCleared (player_at (players g) idx)
  then set_statusMessage g "Shoot the 8-ball!"
  else g.

Definition NextTurn g : Game F :=
  let g1 := set_currentPlayer g (1 - currentPlayer g)%Z in
  set_statusMessage g1
    (Player.name (player_at (players g1) (currentPlayer g1)) ++ "'s turn")%string.

(** [playerIndexForType]: defined in updated.c and called nowhere in it. *)
Definition playerIndexForType g (btype : BallType) : Z :=
  match btype with
  | BALL_SOLID =>
      if bool_decide (Player.type (fst (players g)) = PLAYER_SOLIDS) then 0
      else if bool_decide (Player.type (snd (players g)) = PLAYER_SOLIDS) then 1
      else -1
  | BALL_STRIPE =>
      if bool_decide (Player.type (fst (players g)) = PLAYER_STRIPES) then 0
      else if bool_decide (Player.type (snd (players g)) = PLAYER_STRIPES) then 1
      else -1
  | _ => -1
  end%Z.

Definition AreBallsMoving g : bool :=
  existsb (fun b =>
             negb (Ball.pocketed b) &&
             ((fabs (x (Ball.velocity b)) >? MIN_VELOCITY)
              || (fabs (y (Ball.velocity b)) >? MIN_VELOCITY)))
          (balls g).

(** *** CheckPockets *)

(** The state of the scan between two iterations of the outer loop:
    either it goes on with the game and the two local flags, or the
    function has returned from inside the loop (8-ball branch). *)
Inductive Scan : Type :=
| Go (g : Game F) (cueBallPocketed anyPocketed : bool)
| Ret (g : Game F).

Definition pocketBall b : Ball.t F :=
  Ball.set_velocity (Ball.set_pocketed b true) zeroV.

(** One iteration of the outer loop, for ball [i]. *)
Definition CheckPockets_body (i : nat) g (cueBallPocketed anyPocketed : bool) : Scan :=
  match balls g !! i with
  | None => Go g cueBallPocketed anyPocketed
  | Some b =>
      if Ball.pocketed b then Go g cueBallPocketed anyPocketed
      else if inPocket (Ball.position b) then
        let g1 := set_balls g (<[i := pocketBall b]> (balls g)) in
        if (i =? 0)%nat then
          Go (set_cueBallPos g1 cueStart) true true
        else if bool_decide (Ball.type b = BALL_EIGHT) then
          let myIdx := currentPlayer g1 in
          if groupCleared (player_at (players g1) myIdx)
          then Ret (set_state g1 GAME_WON)
          else Ret (set_state g1 GAME_LOST)
        else Go g1 cueBallPocketed true
      else Go g cueBallPocketed anyPocketed
  end.

Fixpoint CheckPockets_loop (idxs : list nat) g (cueBallPocketed anyPocketed : bool)
  : Scan :=
  match idxs with
  | [] => Go g cueBallPocketed anyPocketed
  | i :: idxs' =>
      match CheckPockets_body i g cueBallPocketed anyPocketed with
      | Go g' c a => CheckPockets_loop idxs' g' c a
      | Ret g' => Ret g'
      end
  end.

(** The message written by [sprintf("%s pocketed a ball!", ...)]. *)
Definition pocketedMessage (n : string) : string := (n ++ " pocketed a ball!")%string.

Definition CheckPockets g : Game F :=
  match CheckPockets_loop (seq 0 MAX_BALLS) g false false with
  | Ret g' => g'
  | Go g' cueBallPocketed anyPocketed =>
      let g1 := if cueBallPocketed then ApplyScratch g' else g' in
      if anyPocketed then
        set_statusMessage g1
          (pocketedMessage (Player.name (player_at (players g1) (currentPlayer g1))))
      else g1
  end.

(** *** UpdatePhysics *)

(** The body of the motion loop for one ball. *)
Definition moveBall b : Ball.t F :=
  if Ball.pocketed b then b
  else
    let px := x (Ball.position b) + x (Ball.velocity b) in
    let py := y (Ball.position b) + y (Ball.velocity b) in
    let vx := x (Ball.velocity b) * FRICTION in
    let vy := y (Ball.velocity b) * FRICTION in
    let vx := if fabs vx <? MIN_VELOCITY then fint 0 else vx in
    let vy := if fabs vy <? MIN_VELOCITY then fint 0 else vy in
    let '(px, vx) :=
      if px - fint BALL_RADIUS <? fint RAIL_WIDTH
      then (fint (RAIL_WIDTH + BALL_RADIUS), vx * - flit 86 100) else (px, vx) in
    let '(px, vx) :=
      if px + fint BALL_RADIUS >? fint (TABLE_WIDTH - RAIL_WIDTH)
      then (fint (TABLE_WIDTH - RAIL_WIDTH - BALL_RADIUS), vx * - flit 86 100)
      else (px, vx) in
    let '(py, vy) :=
      if py - fint BALL_RADIUS <? fint RAIL_WIDTH
      then (fint (RAIL_WIDTH + BALL_RADIUS), vy * - flit 86 100) else (py, vy) in
    let '(py, vy) :=
      if py + fint BALL_RADIUS >? fint (TABLE_HEIGHT - RAIL_WIDTH)
      then (fint (TABLE_HEIGHT - RAIL_WIDTH - BALL_RADIUS), vy * - flit 86 100)
      else (py, vy) in
    ClampBallSpeed
      (Ball.set_velocity (Ball.set_position b (mkVector2 px py)) (mkVector2 vx vy))
      MAX_BALL_SPEED.

(** The first loop of [UpdatePhysics]: iteration [i] reads and writes
    [balls[i]] only, so the loop is a map over the array. *)
Definition moveBalls g : Game F := set_balls g (map moveBall (balls g)).

Definition UpdatePhysics g : Game F :=
  CheckPockets (CheckCollisions (moveBalls g)).

(** *** HandleInput *)

(** The placement branch of the scratch mode: the pointer is strictly
    inside the rails by one ball radius. *)
Definition validPlacement (m : Vector2 F) : bool :=
  (x m >? fint (RAIL_WIDTH + BALL_RADIUS))
  && (x m <? fint (TABLE_WIDTH - RAIL_WIDTH - BALL_RADIUS))
  && (y m >? fint (RAIL_WIDTH + BALL_RADIUS))
  && (y m <? fint (TABLE_HEIGHT - RAIL_WIDTH - BALL_RADIUS)).

Definition cuePlacedMessage (n : string) : string :=
  ("Cue placed. " ++ n ++ "'s turn")%string.

Definition placeCueBall g (m : Vector2 F) : Game F :=
  let g1 := set_cueBallPos g m in
  let g2 :=
    set_balls g1
      (match balls g1 !! 0%nat with
       | Some b0 =>
           <[0%nat :=
               Ball.set_velocity
                 (Ball.set_pocketed (Ball.set_position b0 (cueBallPos g1)) false)
                 zeroV]> (balls g1)
       | None => balls g1
       end) in
  let g3 := set_state g2 GAME_PLAYING in
  set_statusMessage g3
    (cuePlacedMessage (Player.name (player_at (players g3) (currentPlayer g3)))).

(** The release branch: the shot. *)
Definition releaseShot g (m cue : Vector2 F) : Game F :=
  let g1 := set_aiming g false in
  let dirx := x m - x cue in
  let diry := y m - y cue in
  let len := fsqrt (dirx * dirx + diry * diry) in
  if len <? flit 1 1000 then g1
  else
    let dirx := dirx / len in
    let diry := diry / len in
    let shotSpeed := (stickPullPixels g1 / MAX_POWER_PIXELS) * MAX_SHOT_SPEED in
    let shotSpeed := if shotSpeed >? MAX_SHOT_SPEED then MAX_SHOT_SPEED else shotSpeed in
    let g2 :=
      set_balls g1
        (match balls g1 !! 0%nat with
         | Some b0 =>
             <[0%nat := Ball.set_velocity b0
                          (mkVector2 (dirx * shotSpeed) (diry * shotSpeed))]>
               (balls g1)
         | None => balls g1
         end) in
    let g3 := set_state g2 GAME_PLAYING in
    let g4 := set_firstShot g3 false in
    let g5 := set_stickRecoil g4 true in
    let g6 := set_recoilTimer g5 (flit 12 100) in
    set_power g6 (fint 0).

Definition HandleInput (inp : Input F) g : Game F :=
  if keyR inp then InitGame
  else
    let m := mousePos inp in
    if bool_decide (state g = GAME_SCRATCH) then
      if mousePressed inp then
        if validPlacement m then placeCueBall g m
        else set_statusMessage g "Invalid position! Place inside rails"
      else g
    else if ballsMoving g then g
    else
      let cue :=
        match balls g !! 0%nat with
        | Some b0 => if Ball.pocketed b0 then cueBallPos g else Ball.position b0
        | None => cueBallPos g
        end in
      let g1 :=
        if mousePressed inp && (Distance m cue <=? fint BALL_RADIUS * flit 16 10)
        then set_power (set_stickPullPixels (set_dragStart (set_aiming g true) m)
                                            (fint 0)) (fint 0)
        else g in
      let g2 :=
        if mouseDown inp && aiming g1 then
          let d := Distance m cue in
          let d := if d >? MAX_POWER_PIXELS then MAX_POWER_PIXELS else d in
          set_power (set_stickPullPixels g1 d) (d / MAX_POWER_PIXELS)
        else g1 in
      if aiming g2 && mouseReleased inp then releaseShot g2 m cue else g2.

(** *** UpdateGame: one frame *)

Definition recoilStep g : Game F :=
  if stickRecoil g then
    let g1 := set_recoilTimer g (recoilTimer g - fint 1 / fint 60) in
    if recoilTimer g1 <=? fint 0 then
      set_stickPullPixels (set_stickRecoil g1 false) (fint 0)
    else
      let g2 := set_stickPullPixels g1 (stickPullPixels g1 * flit 92 100) in
      let g3 := set_power g2 (stickPullPixels g2 / MAX_POWER_PIXELS) in
      if power g3 <? fint 0 then set_power g3 (fint 0) else g3
  else g.

Definition settle g : Game F :=
  let g1 :=
    if negb (ballsMoving g) && AreBallsMoving g then set_ballsMoving g true else g in
  if ballsMoving g1 && negb (AreBallsMoving g1) then
    let g2 := set_ballsMoving g1 false in
    if bool_decide (state g2 = GAME_PLAYING) then
      let g3 := CheckWinCondition g2 in
      if bool_decide (state g3 <> GAME_WON) && bool_decide (state g3 <> GAME_LOST)
      then NextTurn g3 else g3
    else g2
  else g1.

Definition UpdateGame (inp : Input F) g : Game F :=
  let g1 := recoilStep (HandleInput inp g) in
  if bool_decide (state g1 = GAME_PLAYING) || bool_decide (state g1 = GAME_SCRATCH)
  then settle (UpdatePhysics g1)
  else g1.

(** The states of an execution: [main] calls [InitGame] once and then
    [UpdateGame] once per frame, with whatever input the frame brings. *)
Inductive reachable : Game F -> Prop :=
| reach_init : reachable InitGame
| reach_frame inp g : reachable g -> reachable (UpdateGame inp g).

(** *** The parts of the elastic collision, as [ResolveElasticCollision]
    computes them *)

(** The normal [(nx, ny)] and the tangent [(tx, ty)] for centres [p], [q]. *)
Definition collisionNormal (p q : Vector2 F) : Vector2 F :=
  let dx := x q - x p in
  let dy := y q - y p in
  let dist := fsqrt (dx * dx + dy * dy) in
  mkVector2 (dx / dist) (dy / dist).
Definition collisionTangent (p q : Vector2 F) : Vector2 F :=
  mkVector2 (- y (collisionNormal p q)) (x (collisionNormal p q)).

(** The projection [v.x * u.x + v.y * u.y] and the recomposition
    [vn * n + vt * t]. *)
Definition along (v u : Vector2 F) : F := x v * x u + y v * y u.
Definition recompose (n t : Vector2 F) (vn vt : F) : Vector2 F :=
  mkVector2 (vn * x n + vt * x t) (vn * y n + vt * y t).

(** *** What the pocket scan does, read off the entry state *)

(** Ball [j] is captured by the scan: it is on the table and within
    [POCKET_RADIUS] of a pocket centre. *)
Definition sinks (bs : list (Ball.t F)) (j : nat) : bool :=
  match bs !! j with
  | Some b => negb (Ball.pocketed b) && inPocket (Ball.position b)
  | None => false
  end.

(** ... and it is an 8-ball at an index other than the cue ball's. *)
Definition eightSinks (bs : list (Ball.t F)) (j : nat) : bool :=
  negb (j =? 0)%nat && sinks bs j &&
  match bs !! j with
  | Some b => bool_decide (Ball.type b = BALL_EIGHT)
  | None => false
  end.

Definition cueSinks g : bool := sinks (balls g) 0.
Definition anySinks g : bool := existsb (sinks (balls g)) (seq 0 MAX_BALLS).
(** The index at which the scan meets a sinking 8-ball, if any. *)
Definition eightIndex g : option nat :=
  find (eightSinks (balls g)) (seq 0 MAX_BALLS).

(** The fields the scan loop never writes. *)
Definition loopFrame g g' : Prop :=
  players g' = players g /\ currentPlayer g' = currentPlayer g /\
  statusMessage g' = statusMessage g /\ power g' = power g /\
  aiming g' = aiming g /\ ballsMoving g' = ballsMoving g /\
  firstShot g' = firstShot g /\ assignedTypes g' = assignedTypes g /\
  dragStart g' = dragStart g /\ stickPullPixels g' = stickPullPixels g /\
  stickLength g' = stickLength g /\ stickRecoil g' = stickRecoil g /\
  recoilTimer g' = recoilTimer g.

(** The 8-ball verdict for the player whose turn it is. *)
Definition eightVerdict g : GameState :=
  if groupCleared (player_at (players g) (currentPlayer g))
  then GAME_WON else GAME_LOST.

(** The three ways an iteration of the scan can go. *)
Inductive body_spec (i : nat) g (c a : bool) : Scan -> Prop :=
| body_skip :
    sinks (balls g) i = false ->
    body_spec i g c a (Go g c a)
| body_cue b :
    balls g !! i = Some b -> sinks (balls g) i = true -> i = 0%nat ->
    body_spec i g c a
      (Go (set_cueBallPos (set_balls g (<[i := pocketBall b]> (balls g))) cueStart)
          true true)
| body_eight b :
    balls g !! i = Some b -> sinks (balls g) i = true ->
    eightSinks (balls g) i = true ->
    body_spec i g c a
      (Ret (set_state (set_balls g (<[i := pocketBall b]> (balls g)))
                      (eightVerdict g)))
| body_object b :
    balls g !! i = Some b -> sinks (balls g) i = true -> i <> 0%nat ->
    eightSinks (balls g) i = false ->
    body_spec i g c a (Go (set_balls g (<[i := pocketBall b]> (balls g))) c true).

(** The array after the scan has handled the indices [lo .. hi-1]. *)
Definition scanned (bs : list (Ball.t F)) (lo hi j : nat) : option (Ball.t F) :=
  if (lo <=? j)%nat && (j <? hi)%nat && sinks bs j
  then pocketBall <$> bs !! j else bs !! j.

(** The scan loop over the indices [s .. s+n-1], described from the state
    it starts in. *)
Definition loop_post (s n : nat) g (c a : bool) (r : Scan) : Prop :=
  match r with
  | Go g' c' a' =>
      (forall j, (s <= j < s + n)%nat -> eightSinks (balls g) j = false) /\
      loopFrame g g' /\ state g' = state g /\
      c' = c || existsb (fun j => (j =? 0)%nat && sinks (balls g) j) (seq s n) /\
      a' = a || existsb (sinks (balls g)) (seq s n) /\
      (forall j, balls g' !! j = scanned (balls g) s (s + n) j)
  | Ret g' =>
      exists k, (s <= k < s + n)%nat /\ eightSinks (balls g) k = true /\
        (forall j, (s <= j < k)%nat -> eightSinks (balls g) j = false) /\
        loopFrame g g' /\ state g' = eightVerdict g /\
        (forall j, balls g' !! j = scanned (balls g) s (S k) j)
  end.

(** The fields [CheckPockets] never writes. *)
Definition scanFrame g g' : Prop :=
  players g' = players g /\ power g' = power g /\
  aiming g' = aiming g /\ ballsMoving g' = ballsMoving g /\
  firstShot g' = firstShot g /\ assignedTypes g' = assignedTypes g /\
  dragStart g' = dragStart g /\ stickPullPixels g' = stickPullPixels g /\
  stickLength g' = stickLength g /\ stickRecoil g' = stickRecoil g /\
  recoilTimer g' = recoilTimer g.

(** A player record as [InitGame] leaves it. *)
Definition unassigned (p : Player.t) : Prop :=
  Player.type p = PLAYER_NONE /\ Player.ballsRemaining p = 7.

Definition rulesInv g : Prop :=
  unassigned (fst (players g)) /\ unassigned (snd (players g)) /\
  state g <> GAME_WON.

(** The state the pocket scan of a frame starts from. *)
Definition scanEntry (inp : Input F) g : Game F :=
  CheckCollisions (moveBalls (recoilStep (HandleInput inp g))).
(** *** What a step keeps of a ball *)

(** The fields that say which ball it is: the rack assigns them. *)
Definition identity b : Z * BallType * Color * bool :=
  (Ball.number b, Ball.type b, Ball.color b, Ball.isStriped b).

(** [b'] is the ball [b] after a step that leaves a pocketed ball alone. *)
Definition kept b b' : Prop :=
  identity b' = identity b /\ (Ball.pocketed b = true -> b' = b).

(** ... and that neither pockets the ball nor brings it back. *)
Definition moved b b' : Prop :=
  kept b b' /\ Ball.pocketed b' = Ball.pocketed b.

(** [balls[0].pocketed]. *)
Definition cueOffTable g : bool :=
  match balls g !! 0%nat with
  | Some b0 => Ball.pocketed b0
  | None => false
  end.

(** *** What [ClampBallSpeed] leaves in a ball *)

(** The velocity [ClampBallSpeed] writes, or leaves, for a ball whose
    velocity is [w]. *)
Definition clampVelocity (w : Vector2 F) (maxSpeed : F) : Vector2 F :=
  let mag := fsqrt (x w * x w + y w * y w) in
  if mag >? maxSpeed
  then mkVector2 ((x w / mag) * maxSpeed) ((y w / mag) * maxSpeed)
  else w.

(** The velocity of [b] is one that [ClampBallSpeed (.., MAX_BALL_SPEED)]
    has left: a velocity [w] whose computed magnitude was not above the
    limit, or the rescaling of a longer one. *)
Definition speedClamped b : Prop :=
  exists w, Ball.velocity b = clampVelocity w MAX_BALL_SPEED.

End Code.

End Updated.

(** ** previous.c

    The earlier version of the same program. The file breaks off inside
    [drawGame]: [updGame] is declared but not defined in it and there is no
    [main], so the functions are embedded without a frame loop. *)

Module Previous.

Inductive BallType : Type := CUE | SOLID | STRIPE | EIGHT.
Inductive GameState : Type := START | PLAY | SCRATCH | WON | LOST.
Inductive PlayerType : Type := NONE | SOL | STR.

#[export] Instance BallType_eq_dec : EqDecision BallType.
Proof. solve_decision. Defined.
#[export] Instance GameState_eq_dec : EqDecision GameState.
Proof. solve_decision. Defined.
#[export] Instance PlayerType_eq_dec : EqDecision PlayerType.
Proof. solve_decision. Defined.

Definition NUM_BALLS : nat := 16.
Definition TBL_W : Z := 800.
Definition TBL_H : Z := 400.
Definition BALL_R : Z := 15.
Definition POCK_R : Z := 28.
Definition RAIL_W : Z := 40.

Module Ball.
Record t (F : Type) : Type := mk {
  pos : Vector2 F;
  vel : Vector2 F;
  color : Color;
  type : BallType;
  num : Z;
  pocketed : bool;
  striped : bool
}.
Arguments mk {F} _ _ _ _ _ _ _.
Arguments pos {F} _.
Arguments vel {F} _.
Arguments color {F} _.
Arguments type {F} _.
Arguments num {F} _.
Arguments pocketed {F} _.
Arguments striped {F} _.

Definition set_pos {F} (b : t F) (p : Vector2 F) : t F :=
  mk p (vel b) (color b) (type b) (num b) (pocketed b) (striped b).
Definition set_vel {F} (b : t F) (v : Vector2 F) : t F :=
  mk (pos b) v (color b) (type b) (num b) (pocketed b) (striped b).
Definition set_pocketed {F} (b : t F) (p : bool) : t F :=
  mk (pos b) (vel b) (color b) (type b) (num b) p (striped b).
End Ball.

Module Player.
Record t : Type := mk {
  type : PlayerType;
  remain : Z;
  name : string
}.
Definition set_type (p : t) (ty : PlayerType) : t := mk ty (remain p) (name p).
Definition set_remain (p : t) (r : Z) : t := mk (type p) r (name p).
End Player.

Record Game (F : Type) : Type := mkGame {
  tblBalls : list (Ball.t F);          (* Ball tblBalls[NUM_BALLS] *)
  players : Player.t * Player.t;       (* Player players[2] *)
  curPlayer : Z;
  state : GameState;
  cuePos : Vector2 F;
  power : F;
  aiming : bool;
  ballsMoving : bool;
  firstShot : bool;
  assignedType : bool;
  status : string;
  dragStart : Vector2 F;
  pullDist : F;
  stickLen : F;
  stickRecoiling : bool;
  recoilTimer : F
}.
Arguments mkGame {F} _ _ _ _ _ _ _ _ _ _ _ _ _ _ _ _.
Arguments tblBalls {F} _.
Arguments players {F} _.
Arguments curPlayer {F} _.
Arguments state {F} _.
Arguments cuePos {F} _.
Arguments power {F} _.
Arguments aiming {F} _.
Arguments ballsMoving {F} _.
Arguments firstShot {F} _.
Arguments assignedType {F} _.
Arguments status {F} _.
Arguments dragStart {F} _.
Arguments pullDist {F} _.
Arguments stickLen {F} _.
Arguments stickRecoiling {F} _.
Arguments recoilTimer {F} _.

(** [players[i]] and [players[i] = p] for the indices 0 and 1; see
    [Updated.player_at]. *)
Definition player_at (ps : Player.t * Player.t) (i : Z) : Player.t :=
  if i =? 0 then fst ps else snd ps.
Definition set_player_at (ps : Player.t * Player.t) (i : Z) (p : Player.t)
  : Player.t * Player.t :=
  if i =? 0 then (p, snd ps) else (fst ps, p).

Section Setters.
Context {F : Type}.
Implicit Type g : Game F.

Definition set_tblBalls g v := mkGame v (players g) (curPlayer g) (state g)
  (cuePos g) (power g) (aiming g) (ballsMoving g) (firstShot g)
  (assignedType g) (status g) (dragStart g) (pullDist g)
  (stickLen g) (stickRecoiling g) (recoilTimer g).
Definition set_players g v := mkGame (tblBalls g) v (curPlayer g) (state g)
  (cuePos g) (power g) (aiming g) (ballsMoving g) (firstShot g)
  (assignedType g) (status g) (dragStart g) (pullDist g)
  (stickLen g) (stickRecoiling g) (recoilTimer g).
Definition set_curPlayer g v := mkGame (tblBalls g) (players g) v (state g)
  (cuePos g) (power g) (aiming g) (ballsMoving g) (firstShot g)
  (assignedType g) (status g) (dragStart g) (pullDist g)
  (stickLen g) (stickRecoiling g) (recoilTimer g).
Definition set_state g v := mkGame (tblBalls g) (players g) (curPlayer g) v
  (cuePos g) (power g) (aiming g) (ballsMoving g) (firstShot g)
  (assignedType g) (status g) (dragStart g) (pullDist g)
  (stickLen g) (stickRecoiling g) (recoilTimer g).
Definition set_cuePos g v := mkGame (tblBalls g) (players g) (curPlayer g)
  (state g) v (power g) (aiming g) (ballsMoving g) (firstShot g)
  (assignedType g) (status g) (dragStart g) (pullDist g)
  (stickLen g) (stickRecoiling g) (recoilTimer g).
Definition set_power g v := mkGame (tblBalls g) (players g) (curPlayer g)
  (state g) (cuePos g) v (aiming g) (ballsMoving g) (firstShot g)
  (assignedType g) (status g) (dragStart g) (pullDist g)
  (stickLen g) (stickRecoiling g) (recoilTimer g).
Definition set_aiming g v := mkGame (tblBalls g) (players g) (curPlayer g)
  (state g) (cuePos g) (power g) v (ballsMoving g) (firstShot g)
  (assignedType g) (status g) (dragStart g) (pullDist g)
  (stickLen g) (stickRecoiling g) (recoilTimer g).
Definition set_firstShot g v := mkGame (tblBalls g) (players g) (curPlayer g)
  (state g) (cuePos g) (power g) (aiming g) (ballsMoving g) v
  (assignedType g) (status g) (dragStart g) (pullDist g)
  (stickLen g) (stickRecoiling g) (recoilTimer g).
Definition set_assignedType g v := mkGame (tblBalls g) (players g) (curPlayer g)
  (state g) (cuePos g) (power g) (aiming g) (ballsMoving g) (firstShot g)
  v (status g) (dragStart g) (pullDist g)
  (stickLen g) (stickRecoiling g) (recoilTimer g).
Definition set_status g v := mkGame (tblBalls g) (players g) (curPlayer g)
  (state g) (cuePos g) (power g) (aiming g) (ballsMoving g) (firstShot g)
  (assignedType g) v (dragStart g) (pullDist g)
  (stickLen g) (stickRecoiling g) (recoilTimer g).
Definition set_dragStart g v := mkGame (tblBalls g) (players g) (curPlayer g)
  (state g) (cuePos g) (power g) (aiming g) (ballsMoving g) (firstShot g)
  (assignedType g) (status g) v (pullDist g)
  (stickLen g) (stickRecoiling g) (recoilTimer g).
Definition set_pullDist g v := mkGame (tblBalls g) (players g) (curPlayer g)
  (state g) (cuePos g) (power g) (aiming g) (ballsMoving g) (firstShot g)
  (assignedType g) (status g) (dragStart g) v
  (stickLen g) (stickRecoiling g) (recoilTimer g).
Definition set_stickRecoiling g v := mkGame (tblBalls g) (players g) (curPlayer g)
  (state g) (cuePos g) (power g) (aiming g) (ballsMoving g) (firstShot g)
  (assignedType g) (status g) (dragStart g) (pullDist g)
  (stickLen g) v (recoilTimer g).
Definition set_recoilTimer g v := mkGame (tblBalls g) (players g) (curPlayer g)
  (state g) (cuePos g) (power g) (aiming g) (ballsMoving g) (firstShot g)
  (assignedType g) (status g) (dragStart g) (pullDist g)
  (stickLen g) (stickRecoiling g) v.
End Setters.

Record Input (F : Type) : Type := mkInput {
  keyR : bool;             (* IsKeyPressed(KEY_R) *)
  mouse : Vector2 F;       (* GetMousePosition() *)
  mousePressed : bool;     (* IsMouseButtonPressed(MOUSE_LEFT_BUTTON) *)
  mouseDown : bool;        (* IsMouseButtonDown(MOUSE_LEFT_BUTTON) *)
  mouseReleased : bool     (* IsMouseButtonReleased(MOUSE_LEFT_BUTTON) *)
}.
Arguments mkInput {F} _ _ _ _ _.
Arguments keyR {F} _.
Arguments mouse {F} _.
Arguments mousePressed {F} _.
Arguments mouseDown {F} _.
Arguments mouseReleased {F} _.

Section Code.
Context {F : Type} `{Scalar F}.
Local Open Scope F_scope.
Implicit Type g : Game F.
Implicit Type b : Ball.t F.

Definition MIN_SPEED : F := flit 6 100.
Definition MAX_PULL : F := fint 160.
Definition MAX_SHOT : F := fint 22.

(** [dist] is [Distance], and the [pockets] array and the capture test are
    those of updated.c with the constants under their earlier names. *)
Definition dist (a b : Vector2 F) : F := Distance a b.

(** *** resetBalls and initGame *)

Definition solidCols : list Color :=
  [YELLOW; BLUE; RED; PURPLE; ORANGE; GREEN; MAROON].
Definition stripeCols : list Color :=
  [YELLOW; BLUE; RED; PURPLE; ORANGE; GREEN; MAROON].

Definition triStart : Vector2 F :=
  mkVector2 (fint TBL_W * flit 72 100) (fint TBL_H * flit 5 10).

Definition cueBall : Ball.t F := Ball.mk cueStart zeroV WHITE CUE 0 false false.

Definition rackBall (idx row col : Z) : Ball.t F :=
  let offX := fint row * (fint (BALL_R * 2) * flit 88 100) in
  let offY := fint (col * (BALL_R * 2) - row * BALL_R)%Z in
  let p := mkVector2 (x triStart + offX) (y triStart + offY) in
  if (idx =? 8)%Z then Ball.mk p zeroV BLACK EIGHT idx false false
  else if (idx <=? 7)%Z then
    Ball.mk p zeroV (nth (Z.to_nat (idx - 1)) solidCols WHITE) SOLID idx false false
  else
    let sidx := (if (idx - 9 <? 0)%Z then 0 else idx - 9)%Z in
    Ball.mk p zeroV (nth (Z.to_nat sidx) stripeCols WHITE) STRIPE idx false true.

Fixpoint rackRow (row : Z) (cols : list Z) (idx : Z) (acc : list (Ball.t F))
  : Z * list (Ball.t F) :=
  match cols with
  | [] => (idx, acc)
  | col :: cols' =>
      if (idx >=? Z.of_nat NUM_BALLS)%Z then (idx, acc)
      else rackRow row cols' (idx + 1)%Z (acc ++ [rackBall idx row col])
  end.

Fixpoint rackRows (rows : list nat) (idx : Z) (acc : list (Ball.t F))
  : list (Ball.t F) :=
  match rows with
  | [] => acc
  | row :: rows' =>
      let '(idx', acc') :=
        rackRow (Z.of_nat row) (map Z.of_nat (seq 0 (S row))) idx acc in
      rackRows rows' idx' acc'
  end.

Definition resetBalls : list (Ball.t F) := rackRows (seq 0 5) 1 [cueBall].

Definition initGame : Game F :=
  {| tblBalls := resetBalls;
     players := (Player.mk NONE 7 "Player1", Player.mk NONE 7 "Player2");
     curPlayer := 0;
     state := START;
     cuePos := cueStart;
     power := fint 0;
     aiming := false;
     ballsMoving := false;
     firstShot := true;
     assignedType := false;
     status := "Break shot: click cue, drag back, release to shoot";
     dragStart := zeroV;
     pullDist := fint 0;
     stickLen := fint 120;
     stickRecoiling := false;
     recoilTimer := fint 0 |}.

(** *** playerIdxForType *)
Definition playerIdxForType g (t : BallType) : Z :=
  match t with
  | SOLID =>
      if bool_decide (Player.type (fst (players g)) = SOL) then 0
      else if bool_decide (Player.type (snd (players g)) = SOL) then 1
      else -1
  | STRIPE =>
      if bool_decide (Player.type (fst (players g)) = STR) then 0
      else if bool_decide (Player.type (snd (players g)) = STR) then 1
      else -1
  | _ => -1
  end%Z.

(** *** resolveElastic *)
Definition resolveElastic (a b : Ball.t F) : Ball.t F * Ball.t F :=
  let dx := x (Ball.pos b) - x (Ball.pos a) in
  let dy := y (Ball.pos b) - y (Ball.pos a) in
  let d := fsqrt (dx * dx + dy * dy) in
  if d <=? flit 1 10000 then (a, b)
  else
    let nx := dx / d in
    let ny := dy / d in
    let tx := - ny in
    let ty := nx in
    let va_n := x (Ball.vel a) * nx + y (Ball.vel a) * ny in
    let va_t := x (Ball.vel a) * tx + y (Ball.vel a) * ty in
    let vb_n := x (Ball.vel b) * nx + y (Ball.vel b) * ny in
    let vb_t := x (Ball.vel b) * tx + y (Ball.vel b) * ty in
    let va_n2 := vb_n in
    let vb_n2 := va_n in
    (Ball.set_vel a (mkVector2 (va_n2 * nx + va_t * tx) (va_n2 * ny + va_t * ty)),
     Ball.set_vel b (mkVector2 (vb_n2 * nx + vb_t * tx) (vb_n2 * ny + vb_t * ty))).

(** *** applyScratch, chkWin, nextTurn *)
Definition applyScratch g : Game F :=
  let g1 := set_state g SCRATCH in
  let g2 := set_status g1 "Scratch! Place cue ball" in
  set_curPlayer g2 (1 - curPlayer g2)%Z.

Definition groupCleared (p : Player.t) : bool :=
  (bool_decide (Player.type p = SOL) && (Player.remain p =? 0)%Z)
  || (bool_decide (Player.type p = STR) && (Player.remain p =? 0)%Z).

Definition chkWin g : Game F :=
  if groupCleared (player_at (players g) (curPlayer g))
  then set_status g "Shoot the 8-ball!" else g.

Definition nextTurn g : Game F :=
  let g1 := set_curPlayer g (1 - curPlayer g)%Z in
  set_status g1 (Player.name (player_at (players g1) (curPlayer g1)) ++ "'s turn")%string.

(** *** chkPockets *)

Inductive Scan : Type :=
| Go (g : Game F) (cuePocketed anyPocket : bool)
| Ret (g : Game F).

Definition pocketBall b : Ball.t F := Ball.set_vel (Ball.set_pocketed b true) zeroV.

(** [if(!g->assignedType && g->firstShot){ ... g->assignedType=true; }] for
    a pocketed ball of type [t]. *)
Definition assignTypes g (t : BallType) : Game F :=
  if negb (assignedType g) && firstShot g then
    let cur := curPlayer g in
    let other := (1 - curPlayer g)%Z in
    let '(tc, to) :=
      if bool_decide (t = SOLID) then (SOL, STR) else (STR, SOL) in
    let ps1 := set_player_at (players g) cur
                 (Player.set_type (player_at (players g) cur) tc) in
    let ps2 := set_player_at ps1 other (Player.set_type (player_at ps1 other) to) in
    set_assignedType (set_players g ps2) true
  else g.

(** [owner = playerIdxForType(..); if(owner>=0 && players[owner].remain>0)
    players[owner].remain--;] *)
Definition countDown g (t : BallType) : Game F :=
  let owner := playerIdxForType g t in
  if (owner >=? 0)%Z && (Player.remain (player_at (players g) owner) >? 0)%Z then
    let p := player_at (players g) owner in
    set_players g (set_player_at (players g) owner
                     (Player.set_remain p (Player.remain p - 1)%Z))
  else g.

Definition chkPockets_body (i : nat) g (cuePocketed anyPocket : bool) : Scan :=
  match tblBalls g !! i with
  | None => Go g cuePocketed anyPocket
  | Some b =>
      if Ball.pocketed b then Go g cuePocketed anyPocket
      else if existsb (fun pk => dist (Ball.pos b) pk <? fint POCK_R) pockets then
        let g1 := set_tblBalls g (<[i := pocketBall b]> (tblBalls g)) in
        if (i =? 0)%nat then Go (set_cuePos g1 cueStart) true true
        else
          let g2 := assignTypes g1 (Ball.type b) in
          if bool_decide (Ball.type b = EIGHT) then
            let idx := curPlayer g2 in
            if groupCleared (player_at (players g2) idx)
            then Ret (set_state g2 WON) else Ret (set_state g2 LOST)
          else Go (countDown g2 (Ball.type b)) cuePocketed true
      else Go g cuePocketed anyPocket
  end.

Fixpoint chkPockets_loop (idxs : list nat) g (cuePocketed anyPocket : bool) : Scan :=
  match idxs with
  | [] => Go g cuePocketed anyPocket
  | i :: idxs' =>
      match chkPockets_body i g cuePocketed anyPocket with
      | Go g' c a => chkPockets_loop idxs' g' c a
      | Ret g' => Ret g'
      end
  end.

Definition chkPockets g : Game F :=
  match chkPockets_loop (seq 0 NUM_BALLS) g false false with
  | Ret g' => g'
  | Go g' cuePocketed anyPocket =>
      let g1 := if cuePocketed then applyScratch g' else g' in
      if anyPocket then
        set_status g1
          (Player.name (player_at (players g1) (curPlayer g1)) ++ " pocketed a ball!")%string
      else g1
  end.

(** *** handleInput *)

Definition validPlacement (m : Vector2 F) : bool :=
  (x m >? fint (RAIL_W + BALL_R)) && (x m <? fint (TBL_W - RAIL_W - BALL_R))
  && (y m >? fint (RAIL_W + BALL_R)) && (y m <? fint (TBL_H - RAIL_W - BALL_R)).

Definition placeCueBall g (m : Vector2 F) : Game F :=
  let g1 := set_cuePos g m in
  let g2 :=
    set_tblBalls g1
      (match tblBalls g1 !! 0%nat with
       | Some b0 =>
           <[0%nat := Ball.set_vel
                        (Ball.set_pocketed (Ball.set_pos b0 (cuePos g1)) false) zeroV]>
             (tblBalls g1)
       | None => tblBalls g1
       end) in
  let g3 := set_state g2 PLAY in
  set_status g3
    ("Cue placed. " ++ Player.name (player_at (players g3) (curPlayer g3)) ++ "'s turn")%string.

Definition releaseShot g (m cue : Vector2 F) : Game F :=
  let g1 := set_aiming g false in
  let dirx := x m - x cue in
  let diry := y m - y cue in
  let len := fsqrt (dirx * dirx + diry * diry) in
  if len <? flit 1 1000 then set_power (set_pullDist g1 (fint 0)) (fint 0)
  else
    let dirx := dirx / len in
    let diry := diry / len in
    let shotSpeed := (pullDist g1 / MAX_PULL) * MAX_SHOT in
    let shotSpeed := if shotSpeed >? MAX_SHOT then MAX_SHOT else shotSpeed in
    let g2 :=
      set_tblBalls g1
        (match tblBalls g1 !! 0%nat with
         | Some b0 =>
             <[0%nat := Ball.set_vel b0
                          (mkVector2 (dirx * shotSpeed) (diry * shotSpeed))]>
               (tblBalls g1)
         | None => tblBalls g1
         end) in
    let g3 := set_state g2 PLAY in
    let g4 := set_firstShot g3 false in
    let g5 := set_stickRecoiling g4 true in
    let g6 := set_recoilTimer g5 (flit 12 100) in
    set_power g6 (fint 0).

Definition handleInput (inp : Input F) g : Game F :=
  if keyR inp then initGame
  else
    let m := mouse inp in
    if bool_decide (state g = SCRATCH) then
      if mousePressed inp then
        if validPlacement m then placeCueBall g m
        else set_status g "Invalid position! Place inside rails"
      else g
    else if ballsMoving g then g
    else
      let cue :=
        match tblBalls g !! 0%nat with
        | Some b0 => if Ball.pocketed b0 then cuePos g else Ball.pos b0
        | None => cuePos g
        end in
      let g1 :=
        if mousePressed inp && (dist m cue <=? fint BALL_R * flit 16 10)
        then set_power (set_pullDist (set_dragStart (set_aiming g true) m) (fint 0))
                       (fint 0)
        else g in
      let g2 :=
        if mouseDown inp && aiming g1 then
          let d := dist m cue in
          let d := if d >? MAX_PULL then MAX_PULL else d in
          let g' := set_pullDist g1 d in
          set_power g' (pullDist g' / MAX_PULL)
        else g1 in
      if mouseReleased inp && aiming g2 then releaseShot g2 m cue else g2.

(** *** ballsAreMoving, clampSpeed, chkCollisions, updPhysics *)

Definition ballsAreMoving g : bool :=
  existsb (fun b =>
             negb (Ball.pocketed b) &&
             ((fabs (x (Ball.vel b)) >? MIN_SPEED)
              || (fabs (y (Ball.vel b)) >? MIN_SPEED)))
          (tblBalls g).

Definition clampSpeed b (maxSpeed : F) : Ball.t F :=
  let mag := fsqrt (x (Ball.vel b) * x (Ball.vel b) + y (Ball.vel b) * y (Ball.vel b)) in
  if mag >? maxSpeed then
    Ball.set_vel b
      (mkVector2 ((x (Ball.vel b) / mag) * maxSpeed) ((y (Ball.vel b) / mag) * maxSpeed))
  else b.

(** The body of the inner loop of [chkCollisions] for the pair [i], [j]. *)
Definition collidePair (i j : nat) (bs : list (Ball.t F)) : list (Ball.t F) :=
  match bs !! i, bs !! j with
  | Some bi, Some bj =>
      if Ball.pocketed bj then bs
      else
        let d := dist (Ball.pos bi) (Ball.pos bj) in
        let minD := fint BALL_R * fint 2 in
        if (d <? minD) && (d >? flit 1 10000) then
          let overlap := flit 5 10 * (minD - d + flit 1 1000) in
          let norm :=
            mkVector2 ((x (Ball.pos bj) - x (Ball.pos bi)) / d)
                      ((y (Ball.pos bj) - y (Ball.pos bi)) / d) in
          let bi1 := Ball.set_pos bi
            (mkVector2 (x (Ball.pos bi) - x norm * overlap)
                       (y (Ball.pos bi) - y norm * overlap)) in
          let bj1 := Ball.set_pos bj
            (mkVector2 (x (Ball.pos bj) + x norm * overlap)
                       (y (Ball.pos bj) + y norm * overlap)) in
          let '(bi2, bj2) := resolveElastic bi1 bj1 in
          <[j := clampSpeed bj2 MAX_BALL_SPEED]>
            (<[i := clampSpeed bi2 MAX_BALL_SPEED]> bs)
        else bs
  | _, _ => bs
  end.

Definition collideRow (bs : list (Ball.t F)) (i : nat) : list (Ball.t F) :=
  match bs !! i with
  | Some bi =>
      if Ball.pocketed bi then bs
      else fold_left (fun acc j => collidePair i j acc)
                     (seq (S i) (NUM_BALLS - S i)) bs
  | None => bs
  end.

Definition chkCollisions g : Game F :=
  set_tblBalls g (fold_left collideRow (seq 0 NUM_BALLS) (tblBalls g)).

(** The body of the motion loop of [updPhysics] for one ball. *)
Definition moveBall b : Ball.t F :=
  if Ball.pocketed b then b
  else
    let px := x (Ball.pos b) + x (Ball.vel b) in
    let py := y (Ball.pos b) + y (Ball.vel b) in
    let vx := x (Ball.vel b) * FRICTION in
    let vy := y (Ball.vel b) * FRICTION in
    let vx := if fabs vx <? MIN_SPEED then fint 0 else vx in
    let vy := if fabs vy <? MIN_SPEED then fint 0 else vy in
    let '(px, vx) :=
      if px - fint BALL_R <? fint RAIL_W
      then (fint (RAIL_W + BALL_R), vx * - flit 86 100) else (px, vx) in
    let '(px, vx) :=
      if px + fint BALL_R >? fint (TBL_W - RAIL_W)
      then (fint (TBL_W - RAIL_W - BALL_R), vx * - flit 86 100) else (px, vx) in
    let '(py, vy) :=
      if py - fint BALL_R <? fint RAIL_W
      then (fint (RAIL_W + BALL_R), vy * - flit 86 100) else (py, vy) in
    let '(py, vy) :=
      if py + fint BALL_R >? fint (TBL_H - RAIL_W)
      then (fint (TBL_H - RAIL_W - BALL_R), vy * - flit 86 100) else (py, vy) in
    clampSpeed (Ball.set_vel (Ball.set_pos b (mkVector2 px py)) (mkVector2 vx vy))
               MAX_BALL_SPEED.

Definition moveBalls g : Game F := set_tblBalls g (map moveBall (tblBalls g)).

Definition updPhysics g : Game F := chkPockets (chkCollisions (moveBalls g)).

(** *** The states of previous.c

    [updGame] is declared but not defined in previous.c and there is no
    [main]: the states considered are those that calls of the functions the
    file defines produce from [initGame], in any order and with any
    input. *)
Inductive reachable : Game F -> Prop :=
| reach_init : reachable initGame
| reach_handleInput inp g : reachable g -> reachable (handleInput inp g)
| reach_updPhysics g : reachable g -> reachable (updPhysics g)
| reach_chkWin g : reachable g -> reachable (chkWin g)
| reach_nextTurn g : reachable g -> reachable (nextTurn g)
| reach_applyScratch g : reachable g -> reachable (applyScratch g).

(** The assignment state of a game: both players' types and the flag. *)
Definition typesOf g : PlayerType * PlayerType * bool :=
  (Player.type (fst (players g)), Player.type (snd (players g)), assignedType g).

(** Ball [j] is captured by the scan, and it is an 8-ball at an index other
    than the cue ball's; as for updated.c. *)
Definition sinks (bs : list (Ball.t F)) (j : nat) : bool :=
  match bs !! j with
  | Some b => negb (Ball.pocketed b)
              && existsb (fun pk => dist (Ball.pos b) pk <? fint POCK_R) pockets
  | None => false
  end.

Definition eightSinks (bs : list (Ball.t F)) (j : nat) : bool :=
  negb (j =? 0)%nat && sinks bs j &&
  match bs !! j with
  | Some b => bool_decide (Ball.type b = EIGHT)
  | None => false
  end.

(** Both counters are not negative. *)
Definition remainNonneg g : Prop :=
  (0 <= Player.remain (fst (players g)))%Z /\ (0 <= Player.remain (snd (players g)))%Z.

End Code.

End Previous.

(** ** Measures of the physics in exact arithmetic *)

Module Exact.
Local Open Scope R_scope.

Definition dot (u v : Vector2 R) : R := x u * x v + y u * y v.

(** The magnitude of a velocity. *)
Definition norm (v : Vector2 R) : R := sqrt (x v * x v + y v * y v).

Definition speed (b : Updated.Ball.t R) : R := norm (Updated.Ball.velocity b).

(** The unit normal along the line of centres from [p] to [q], and the
    tangent perpendicular to it. *)
Definition normal (p q : Vector2 R) : Vector2 R :=
  mkVector2 ((x q - x p) / Distance q p) ((y q - y p) / Distance q p).
Definition tangent (p q : Vector2 R) : Vector2 R :=
  mkVector2 (- y (normal p q)) (x (normal p q)).

(** What a frame maintains: no ball is faster than [MAX_BALL_SPEED] and the
    pull of the stick is not negative. *)
Definition speedInv (g : Updated.Game R) : Prop :=
  Forall (fun b => speed b <= 26) (Updated.balls g) /\
  0 <= Updated.stickPullPixels g.

(** Two balls in contact on a horizontal line, closing at equal speed. *)
Definition ballLeft : Updated.Ball.t R :=
  Updated.Ball.mk (mkVector2 100 100) (mkVector2 2 0) WHITE Updated.BALL_CUE 0 false false.
Definition ballRight : Updated.Ball.t R :=
  Updated.Ball.mk (mkVector2 130 100) (mkVector2 (-2) 0) YELLOW Updated.BALL_SOLID 1
                  false false.

(** A frame without input. *)
Definition idleR : Updated.Input R := Updated.mkInput false (mkVector2 0 0) false false false.

End Exact.

(** ** Concrete tables and executions, in binary32 *)

Module Tables.

Definition pt (px py : Z) : Vector2 binary32 := mkVector2 (fint px) (fint py).

(** Frames of input for updated.c: nothing, a click, a drag, a release. *)
Definition idle : Updated.Input binary32 := Updated.mkInput false (pt 0 0) false false false.
Definition press (px py : Z) : Updated.Input binary32 :=
  Updated.mkInput false (pt px py) true true false.
Definition drag (px py : Z) : Updated.Input binary32 :=
  Updated.mkInput false (pt px py) false true false.
Definition release (px py : Z) : Updated.Input binary32 :=
  Updated.mkInput false (pt px py) false false true.

(** [main]'s loop over a finite list of frames. *)
Fixpoint run (inps : list (Updated.Input binary32)) (g : Updated.Game binary32)
  : Updated.Game binary32 :=
  match inps with
  | [] => g
  | inp :: inps' => run inps' (Updated.UpdateGame inp g)
  end.

(** Player 1 breaks: grabs the cue ball at its rack position, pulls to
    (87,87) and lets go, which sends the cue ball along that line towards
    the upper left corner at full speed. After eight more frames it is about
    to reach the pocket; the frame after that it drops. *)
Definition breakShot : list (Updated.Input binary32) :=
  [press 200 200; drag 87 87; release 87 87] ++ repeat idle 8.

Definition cornerApproach : Updated.Game binary32 :=
  Eval vm_compute in run breakShot Updated.InitGame.

Definition scratchTable : Updated.Game binary32 :=
  Eval vm_compute in Updated.UpdateGame idle cornerApproach.

(** Player 2 puts the cue ball down at (715,150), to the right of the rack,
    and shoots at full power towards (451,310). 22 frames after the release
    ball 10 is about to drop; the frame after that it does. *)
Definition placeAndShoot : list (Updated.Input binary32) :=
  [press 715 150; press 715 150; drag 451 310; release 451 310] ++ repeat idle 22.

Definition pocketApproach : Updated.Game binary32 :=
  Eval vm_compute in run placeAndShoot scratchTable.

Definition stripeDownTable : Updated.Game binary32 :=
  Eval vm_compute in Updated.UpdateGame idle pocketApproach.

(** The frames from the rack to [stripeDownTable]. *)
Definition twoShots : list (Updated.Input binary32) :=
  (breakShot ++ [idle]) ++ (placeAndShoot ++ [idle]).

(** Moving one ball of an array by hand. *)
Definition putBall (i : nat) (p : Vector2 binary32)
    (bs : list (Updated.Ball.t binary32)) : list (Updated.Ball.t binary32) :=
  match bs !! i with
  | Some b => <[i := Updated.Ball.set_position b p]> bs
  | None => bs
  end.

(** The rack in play with the 8-ball resting in the jaws of the lower right
    corner pocket, and the same with the cue ball in the upper left one. *)
Definition eightTable : Updated.Game binary32 :=
  Updated.set_firstShot
    (Updated.set_state
       (Updated.set_balls Updated.InitGame (putBall 8 (pt 745 345) Updated.ResetBalls))
       Updated.GAME_PLAYING)
    false.

Definition cueEightTable : Updated.Game binary32 :=
  Updated.set_balls eightTable (putBall 0 (pt 55 55) (Updated.balls eightTable)).

(** Hand-made tables for the pocket scan of previous.c: a solid ball
    (ball 1) resting in the jaws of the upper left corner pocket. *)
Definition prevPutBall (i : nat) (p : Vector2 binary32)
    (bs : list (Previous.Ball.t binary32)) : list (Previous.Ball.t binary32) :=
  match bs !! i with
  | Some b => <[i := Previous.Ball.set_pos b p]> bs
  | None => bs
  end.

(** The rack of previous.c in play with ball 1 there, unassigned, with the
    break-shot flag as given. *)
Definition prevSolidTable (firstShot : bool) : Previous.Game binary32 :=
  Previous.set_firstShot
    (Previous.set_state
       (Previous.set_tblBalls Previous.initGame
          (prevPutBall 1 (pt 55 55) Previous.resetBalls))
       Previous.PLAY)
    firstShot.

(** ... and with the 8-ball in the lower right corner pocket instead. *)
Definition prevEightTable : Previous.Game binary32 :=
  Previous.set_firstShot
    (Previous.set_state
       (Previous.set_tblBalls Previous.initGame
          (prevPutBall 8 (pt 745 345) Previous.resetBalls))
       Previous.PLAY)
    false.

(** The same with player 1 on solids and player 2 on stripes, 7 to go
    each, after the break. *)
Definition prevAssignedTable : Previous.Game binary32 :=
  Previous.set_assignedType
    (Previous.set_players (prevSolidTable false)
       (Previous.Player.mk Previous.SOL 7 "Player1",
        Previous.Player.mk Previous.STR 7 "Player2"))
    true.

(** [scaled k f] is the integer [f * 2^k] when the float [f] is finite and
    that product is an integer: the exact value of [f], to compare exactly. *)
Definition scaled (k : Z) (f : binary32) : option Z :=
  match f with
  | S754_zero _ => Some 0
  | S754_finite s m e =>
      if (0 <=? e + k) then Some ((if s then -1 else 1) * Z.pos m * 2 ^ (e + k))
      else None
  | _ => None
  end.

Definition setBall (i : nat) (p v : Vector2 binary32)
    (bs : list (Updated.Ball.t binary32)) : list (Updated.Ball.t binary32) :=
  match bs !! i with
  | Some b => <[i := Updated.Ball.set_velocity (Updated.Ball.set_position b p) v]> bs
  | None => bs
  end.

(** The cue ball moving down the table at 24 and ball 1 coming from its
    right at 18, the centres 29 apart on a horizontal line; the rest of the
    rack is far away. *)
Definition crossTable : Updated.Game binary32 :=
  Updated.set_firstShot
    (Updated.set_state
       (Updated.set_balls Updated.InitGame
          (setBall 1 (pt 329 200) (pt (-18) 0)
             (setBall 0 (pt 300 200) (pt 0 24) Updated.ResetBalls)))
       Updated.GAME_PLAYING)
    false.

(** Two balls 20 apart along the direction (3/5, 4/5), the first moving to
    the right at 2, the second at rest. *)
Definition slantLeft : Updated.Ball.t binary32 :=
  Updated.Ball.mk (pt 100 100) (pt 2 0) WHITE Updated.BALL_CUE 0 false false.
Definition slantRight : Updated.Ball.t binary32 :=
  Updated.Ball.mk (pt 112 116) (pt 0 0) YELLOW Updated.BALL_SOLID 1 false false.


(** The reset key, with the pointer anywhere. *)
Definition resetKey : Updated.Input binary32 :=
  Updated.mkInput true (pt 400 200) false false false.

End Tables.

(** ** Properties of updated.c *)

Module UpdatedProofs.
Import Updated.

Section Rules.
Context {F : Type} `{Scalar F}.
Implicit Type g : Game F.
Implicit Type b : Ball.t F.

Lemma loopFrame_refl g : loopFrame g g.
Proof. repeat split. Qed.

Lemma loopFrame_trans g1 g2 g3 :
  loopFrame g1 g2 -> loopFrame g2 g3 -> loopFrame g1 g3.
Proof.
  unfold loopFrame. intros H12 H23.
  repeat match goal with Hc : _ /\ _ |- _ => destruct Hc end.
  repeat split; congruence.
Qed.

Lemma sinks_insert_ne (bs : list (Ball.t F)) i j b :
  i <> j -> sinks (<[i := b]> bs) j = sinks bs j.
Proof. intros Hne. unfold sinks. by rewrite list_lookup_insert_ne. Qed.

Lemma eightSinks_insert_ne (bs : list (Ball.t F)) i j b :
  i <> j -> eightSinks (<[i := b]> bs) j = eightSinks bs j.
Proof.
  intros Hne. unfold eightSinks.
  by rewrite sinks_insert_ne, list_lookup_insert_ne.
Qed.


Lemma CheckPockets_body_spec i g c a :
  body_spec i g c a (CheckPockets_body i g c a).
Proof.
  unfold CheckPockets_body.
  destruct (balls g !! i) as [b|] eqn:Hb.
  2:{ apply body_skip. unfold sinks. by rewrite Hb. }
  destruct (Ball.pocketed b) eqn:Hp.
  { apply body_skip. unfold sinks. by rewrite Hb, Hp. }
  destruct (inPocket (Ball.position b)) eqn:Hin.
  2:{ apply body_skip. unfold sinks. by rewrite Hb, Hp, Hin. }
  assert (Hs : sinks (balls g) i = true).
  { unfold sinks. by rewrite Hb, Hp, Hin. }
  destruct (i =? 0)%nat eqn:Hi.
  { apply Nat.eqb_eq in Hi. by apply body_cue. }
  apply Nat.eqb_neq in Hi.
  assert (Hi' : (i =? 0)%nat = false) by by apply Nat.eqb_neq.
  destruct (bool_decide (Ball.type b = BALL_EIGHT)) eqn:He.
  - assert (He8 : eightSinks (balls g) i = true).
    { unfold eightSinks. by rewrite Hi', Hs, Hb, He. }
    cbn [currentPlayer players set_balls].
    pose proof (body_eight i g c a b Hb Hs He8) as Hspec.
    unfold eightVerdict in Hspec.
    by destruct (groupCleared _).
  - apply body_object; try done.
    unfold eightSinks. rewrite Hi', Hs, Hb, He. done.
Qed.


Lemma existsb_ext_in {A} (f f' : A -> bool) (l : list A) :
  (forall a, In a l -> f a = f' a) -> existsb f l = existsb f' l.
Proof.
  induction l as [|a l IH]; intros Hext; [done|]. simpl.
  rewrite (Hext a) by (by left). f_equal. apply IH. intros; apply Hext; by right.
Qed.

Lemma scanned_step (bs : list (Ball.t F)) s hi j b :
  bs !! s = Some b -> sinks bs s = true -> (s < hi)%nat ->
  scanned (<[s := pocketBall b]> bs) (S s) hi j = scanned bs s hi j.
Proof.
  intros Hb Hs Hlt. unfold scanned.
  destruct (decide (j = s)) as [->|Hne].
  - assert (Hf : (S s <=? s)%nat = false) by (apply Nat.leb_gt; lia).
    rewrite Hf. simpl.
    assert (Ht : (s <=? s)%nat = true) by (apply Nat.leb_le; lia).
    assert (Ht' : (s <? hi)%nat = true) by (apply Nat.ltb_lt; lia).
    rewrite Ht, Ht', Hs, Hb. simpl.
    apply list_lookup_insert_eq. by eapply lookup_lt_Some.
  - rewrite sinks_insert_ne, list_lookup_insert_ne by done.
    assert (Heq : (S s <=? j)%nat = (s <=? j)%nat).
    { destruct (S s <=? j)%nat eqn:E1, (s <=? j)%nat eqn:E2; try done.
      - apply Nat.leb_le in E1. apply Nat.leb_gt in E2. lia.
      - apply Nat.leb_gt in E1. apply Nat.leb_le in E2. lia. }
    by rewrite Heq.
Qed.

Lemma scanned_skip (bs : list (Ball.t F)) s hi j :
  sinks bs s = false -> scanned bs (S s) hi j = scanned bs s hi j.
Proof.
  intros Hs. unfold scanned.
  destruct (decide (j = s)) as [->|Hne].
  - assert (Hf : (S s <=? s)%nat = false) by (apply Nat.leb_gt; lia).
    rewrite Hf, Hs. simpl. by rewrite andb_false_r.
  - assert (Heq : (S s <=? j)%nat = (s <=? j)%nat).
    { destruct (S s <=? j)%nat eqn:E1, (s <=? j)%nat eqn:E2; try done.
      - apply Nat.leb_le in E1. apply Nat.leb_gt in E2. lia.
      - apply Nat.leb_gt in E1. apply Nat.leb_le in E2. lia. }
    by rewrite Heq.
Qed.

Lemma eightSinks_sinks (bs : list (Ball.t F)) j :
  sinks bs j = false -> eightSinks bs j = false.
Proof. intros Hs. unfold eightSinks. rewrite Hs. by rewrite andb_false_r. Qed.


Lemma loop_post_shift s n g g1 c a c1 a1 r :
  (forall j, (s < j)%nat -> sinks (balls g1) j = sinks (balls g) j) ->
  (forall j, (s < j)%nat -> eightSinks (balls g1) j = eightSinks (balls g) j) ->
  eightSinks (balls g) s = false ->
  loopFrame g g1 -> state g1 = state g ->
  c1 = c || ((s =? 0)%nat && sinks (balls g) s) ->
  a1 = a || sinks (balls g) s ->
  (forall hi j, (s < hi)%nat -> scanned (balls g1) (S s) hi j = scanned (balls g) s hi j) ->
  loop_post (S s) n g1 c1 a1 r -> loop_post s (S n) g c a r.
Proof.
  intros Hsk He8 Hs8 Hfr Hst Hc Ha Hsc Hpost.
  assert (Hex : forall f f' : nat -> bool,
             (forall j, (s < j)%nat -> f j = f' j) ->
             existsb f (seq (S s) n) = existsb f' (seq (S s) n)).
  { intros f f' Hff. apply existsb_ext_in. intros j Hj.
    apply in_seq in Hj. apply Hff. lia. }
  assert (Hv : eightVerdict g1 = eightVerdict g).
  { unfold eightVerdict. destruct Hfr as (-> & -> & _). done. }
  destruct r as [g' c' a' | g']; simpl in *.
  - destruct Hpost as (Hno & Hfr' & Hst' & Hc' & Ha' & Hb').
    split; [|split; [|split; [|split; [|split]]]].
    + intros j Hj. destruct (decide (j = s)) as [->|Hne]; [done|].
      rewrite <- He8 by lia. apply Hno. lia.
    + by eapply loopFrame_trans.
    + congruence.
    + rewrite Hc', Hc, <- orb_assoc. f_equal. f_equal.
      apply Hex. intros j Hj. by rewrite Hsk.
    + rewrite Ha', Ha, <- orb_assoc. f_equal. f_equal.
      apply Hex. intros j Hj. by rewrite Hsk.
    + intros j. rewrite Hb'. replace (s + S n)%nat with (S s + n)%nat by lia.
      apply Hsc. lia.
  - destruct Hpost as (k & Hk & Hk8 & Hno & Hfr' & Hst' & Hb').
    exists k. split; [lia|]. split; [rewrite <- He8 by lia; done|].
    split; [|split; [|split]].
    + intros j Hj. destruct (decide (j = s)) as [->|Hne]; [done|].
      rewrite <- He8 by lia. apply Hno. lia.
    + by eapply loopFrame_trans.
    + congruence.
    + intros j. rewrite Hb'. apply Hsc. lia.
Qed.

Lemma CheckPockets_loop_spec n : forall s g c a,
  loop_post s n g c a (CheckPockets_loop (seq s n) g c a).
Proof.
  induction n as [|n IH]; intros s g c a.
  - simpl. split; [intros; lia|]. split; [apply loopFrame_refl|].
    split; [done|]. rewrite !orb_false_r. split; [done|]. split; [done|].
    intros j. unfold scanned.
    replace ((s <=? j)%nat && (j <? s + 0)%nat) with false; [done|].
    symmetry. apply andb_false_iff.
    destruct (s <=? j)%nat eqn:E; [right|by left].
    apply Nat.leb_le in E. apply Nat.ltb_ge. lia.
  - cbn [seq CheckPockets_loop].
    destruct (CheckPockets_body_spec s g c a) as [Hs | b Hb Hs H0 | b Hb Hs H8 | b Hb Hs H0 H8].
    + apply (loop_post_shift s n g g c a c a); [done|done| | | | | | |apply IH].
      * by apply eightSinks_sinks.
      * apply loopFrame_refl.
      * done.
      * by rewrite Hs, andb_false_r, orb_false_r.
      * by rewrite Hs, orb_false_r.
      * intros hi j _. by apply scanned_skip.
    + subst s.
      eapply (loop_post_shift 0 n g _ c a true true);
        [| | | | | | | |apply IH]; cbn [balls set_cueBallPos set_balls].
      * intros j Hj. apply sinks_insert_ne. lia.
      * intros j Hj. apply eightSinks_insert_ne. lia.
      * done.
      * repeat split.
      * done.
      * by rewrite Hs, orb_true_r.
      * by rewrite Hs, orb_true_r.
      * intros hi j Hhi. by apply scanned_step.
    + simpl. exists s. split; [lia|]. split; [done|]. split; [intros; lia|].
      split; [repeat split|]. split; [done|].
      intros j. rewrite <- (scanned_step (balls g) s (S s) j b) by (done || lia).
      unfold scanned.
      replace ((S s <=? j)%nat && (j <? S s)%nat) with false; [done|].
      symmetry. apply andb_false_iff.
      destruct (S s <=? j)%nat eqn:E; [right|by left].
      apply Nat.leb_le in E. apply Nat.ltb_ge. lia.
    + eapply (loop_post_shift s n g _ c a c true);
        [| | | | | | | |apply IH]; cbn [balls set_balls].
      * intros j Hj. apply sinks_insert_ne. lia.
      * intros j Hj. apply eightSinks_insert_ne. lia.
      * done.
      * repeat split.
      * done.
      * assert (E : (s =? 0)%nat = false) by by apply Nat.eqb_neq.
        by rewrite E, orb_false_r.
      * by rewrite Hs, orb_true_r.
      * intros hi j Hhi. by apply scanned_step.
Qed.

Lemma existsb_false {A} (l : list A) : existsb (fun _ => false) l = false.
Proof. by induction l. Qed.

Lemma existsb_at_zero (f : nat -> bool) n :
  existsb (fun j => (j =? 0)%nat && f j) (seq 0 (S n)) = f 0%nat.
Proof.
  cbn [seq existsb]. change (0 =? 0)%nat with true. cbn [andb].
  rewrite (existsb_ext_in _ (fun _ => false)), existsb_false, orb_false_r; [done|].
  intros j Hj. apply in_seq in Hj.
  assert (E : (j =? 0)%nat = false) by (apply Nat.eqb_neq; lia).
  by rewrite E.
Qed.

Lemma eightIndex_Some g k :
  eightIndex g = Some k <->
  (k < MAX_BALLS)%nat /\ eightSinks (balls g) k = true /\
  (forall j, (j < k)%nat -> eightSinks (balls g) j = false).
Proof.
  unfold eightIndex. generalize (eightSinks (balls g)) as f. intros f.
  assert (Hgen : forall n s, find f (seq s n) = Some k <->
            (s <= k < s + n)%nat /\ f k = true /\
            (forall j, (s <= j < k)%nat -> f j = false)).
  { induction n as [|n IH]; intros s; cbn [seq find].
    - split; [done|]. intros [? _]. lia.
    - destruct (f s) eqn:Hs.
      + split.
        * intros [= <-]. split; [lia|]. split; [done|]. intros; lia.
        * intros (Hk & Hfk & Hno). f_equal.
          destruct (decide (s = k)) as [|Hne]; [done|].
          rewrite Hno in Hs by lia. done.
      + rewrite IH. split.
        * intros (Hk & Hfk & Hno). split; [lia|]. split; [done|].
          intros j Hj. destruct (decide (j = s)) as [->|]; [done|]. apply Hno. lia.
        * intros (Hk & Hfk & Hno).
          assert (s <> k) by (intros ->; congruence).
          split; [lia|]. split; [done|]. intros j Hj. apply Hno. lia. }
  rewrite Hgen. split.
  - intros (Hk & ? & Hno). split; [lia|]. split; [done|]. intros; apply Hno; lia.
  - intros (Hk & ? & Hno). split; [lia|]. split; [done|]. intros; apply Hno; lia.
Qed.

Lemma eightIndex_None g :
  eightIndex g = None <->
  (forall j, (j < MAX_BALLS)%nat -> eightSinks (balls g) j = false).
Proof.
  unfold eightIndex. split.
  - intros Hf j Hj.
    destruct (eightSinks (balls g) j) eqn:E; [|done].
    eapply find_none in Hf; [by rewrite Hf in E|]. apply in_seq. lia.
  - intros Hno. destruct (find _ _) as [k|] eqn:E; [|done].
    apply find_some in E as [Hin Hk]. apply in_seq in Hin.
    rewrite Hno in Hk by lia. done.
Qed.


Lemma loopFrame_scanFrame g g' : loopFrame g g' -> scanFrame g g'.
Proof. unfold loopFrame, scanFrame. tauto. Qed.

(** The scan when it meets a sinking 8-ball at index [k]: it returns from
    inside the loop. *)
Lemma CheckPockets_eight g k :
  eightIndex g = Some k ->
  state (CheckPockets g) = eightVerdict g /\
  loopFrame g (CheckPockets g) /\
  (forall j, balls (CheckPockets g) !! j = scanned (balls g) 0 (S k) j).
Proof.
  intros Hk. apply eightIndex_Some in Hk as (Hlt & Hk8 & Hbefore).
  unfold CheckPockets.
  pose proof (CheckPockets_loop_spec MAX_BALLS 0 g false false) as Hloop.
  destruct (CheckPockets_loop _ _ _ _) as [g' c' a' | g']; cbn [loop_post] in Hloop.
  - destruct Hloop as (Hno & _). rewrite Hno in Hk8 by lia. done.
  - destruct Hloop as (k' & Hk' & Hk'8 & Hno & Hfr & Hst & Hb).
    assert (k' = k) as ->.
    { destruct (Nat.lt_trichotomy k' k) as [Hlt'|[->|Hgt]]; [|done|].
      - rewrite Hbefore in Hk'8 by done. done.
      - rewrite Hno in Hk8 by lia. done. }
    done.
Qed.

(** The scan when no 8-ball sinks: the loop runs to its end, then the
    scratch and the message are applied. *)
Lemma CheckPockets_no_eight g :
  eightIndex g = None ->
  scanFrame g (CheckPockets g) /\
  currentPlayer (CheckPockets g)
    = (if cueSinks g then 1 - currentPlayer g else currentPlayer g) /\
  state (CheckPockets g) = (if cueSinks g then GAME_SCRATCH else state g) /\
  statusMessage (CheckPockets g)
    = (if anySinks g
       then pocketedMessage
              (Player.name (player_at (players g) (currentPlayer (CheckPockets g))))
       else statusMessage g) /\
  (forall j, balls (CheckPockets g) !! j = scanned (balls g) 0 MAX_BALLS j) /\
  (cueSinks g = true -> anySinks g = true).
Proof.
  intros Hnone. rewrite eightIndex_None in Hnone.
  assert (Hca : cueSinks g = true -> anySinks g = true).
  { unfold cueSinks, anySinks. intros Hc. apply existsb_exists.
    exists 0%nat. split; [|done]. apply in_seq. unfold MAX_BALLS. lia. }
  unfold CheckPockets.
  pose proof (CheckPockets_loop_spec MAX_BALLS 0 g false false) as Hloop.
  destruct (CheckPockets_loop _ _ _ _) as [g' c' a' | g']; cbn [loop_post] in Hloop.
  2:{ destruct Hloop as (k & Hk & Hk8 & _). rewrite Hnone in Hk8 by lia. done. }
  destruct Hloop as (_ & Hfr & Hst & Hc & Ha & Hb).
  cbn [orb] in Hc, Ha. unfold MAX_BALLS in Hc at 1. rewrite existsb_at_zero in Hc.
  fold (cueSinks g) in Hc. fold (anySinks g) in Ha. subst c' a'.
  pose proof (loopFrame_scanFrame _ _ Hfr) as Hsf.
  destruct Hfr as (Hpl & Hcur & Hmsg & _).
  unfold scanFrame in *.
  destruct (cueSinks g) eqn:Ecue.
  - rewrite (Hca eq_refl). unfold ApplyScratch.
    cbn [players currentPlayer state statusMessage balls power aiming ballsMoving
         firstShot assignedTypes dragStart stickPullPixels stickLength stickRecoil
         recoilTimer set_statusMessage set_currentPlayer set_state].
    rewrite Hpl, Hcur. intuition.
  - destruct (anySinks g);
    cbn [players currentPlayer state statusMessage balls power aiming ballsMoving
         firstShot assignedTypes dragStart stickPullPixels stickLength stickRecoil
         recoilTimer set_statusMessage set_currentPlayer set_state];
    rewrite ?Hpl, ?Hcur; intuition.
Qed.

(** *** Who writes the player records *)

Lemma CheckPockets_frame g :
  scanFrame g (CheckPockets g).
Proof.
  destruct (eightIndex g) as [k|] eqn:Hk.
  - apply loopFrame_scanFrame. by apply (CheckPockets_eight g k).
  - by apply CheckPockets_no_eight.
Qed.

Lemma CheckPockets_players g : players (CheckPockets g) = players g.
Proof. apply CheckPockets_frame. Qed.

Lemma UpdatePhysics_players g : players (UpdatePhysics g) = players g.
Proof. unfold UpdatePhysics. by rewrite CheckPockets_players. Qed.

Lemma recoilStep_players g : players (recoilStep g) = players g.
Proof. unfold recoilStep. by repeat case_match. Qed.

Lemma recoilStep_state g : state (recoilStep g) = state g.
Proof. unfold recoilStep. by repeat case_match. Qed.

Lemma settle_players g : players (settle g) = players g.
Proof. unfold settle, CheckWinCondition, NextTurn. by repeat case_match. Qed.

Lemma settle_state g : state (settle g) = state g.
Proof. unfold settle, CheckWinCondition, NextTurn. by repeat case_match. Qed.

Lemma HandleInput_players inp g :
  keyR inp = false -> players (HandleInput inp g) = players g.
Proof.
  intros HR. unfold HandleInput, placeCueBall, releaseShot. rewrite HR.
  by repeat case_match.
Qed.

Lemma HandleInput_reset inp g : keyR inp = true -> HandleInput inp g = InitGame.
Proof. intros HR. unfold HandleInput. by rewrite HR. Qed.

(** [HandleInput] moves the state to [GAME_PLAYING] (placement, shot) or
    to [GAME_START] (reset), or leaves it. *)
Lemma HandleInput_state inp g :
  state (HandleInput inp g) = state g \/
  state (HandleInput inp g) = GAME_PLAYING \/
  state (HandleInput inp g) = GAME_START.
Proof.
  unfold HandleInput, placeCueBall, releaseShot.
  repeat case_match; cbn; auto.
Qed.

Lemma UpdateGame_players inp g :
  players (UpdateGame inp g)
    = if keyR inp then players (InitGame (F:=F)) else players g.
Proof.
  unfold UpdateGame.
  assert (Hh : players (HandleInput inp g)
               = if keyR inp then players (InitGame (F:=F)) else players g).
  { destruct (keyR inp) eqn:HR.
    - by rewrite HandleInput_reset.
    - by apply HandleInput_players. }
  destruct (_ || _).
  - by rewrite settle_players, UpdatePhysics_players, recoilStep_players.
  - by rewrite recoilStep_players.
Qed.


Lemma unassigned_not_cleared ps i :
  unassigned (fst ps) -> unassigned (snd ps) ->
  groupCleared (player_at ps i) = false.
Proof.
  intros [Ht0 _] [Ht1 _]. unfold groupCleared, player_at.
  destruct (i =? 0); [rewrite Ht0 | rewrite Ht1]; done.
Qed.

(** With both players unassigned the scan cannot produce [GAME_WON]. *)
Lemma CheckPockets_state_unassigned g :
  unassigned (fst (players g)) -> unassigned (snd (players g)) ->
  state (CheckPockets g) = state g \/ state (CheckPockets g) = GAME_SCRATCH \/
  state (CheckPockets g) = GAME_LOST.
Proof.
  intros H0 H1. destruct (eightIndex g) as [k|] eqn:Hk.
  - destruct (CheckPockets_eight g k Hk) as (Hst & _).
    right; right. rewrite Hst. unfold eightVerdict.
    by rewrite unassigned_not_cleared.
  - destruct (CheckPockets_no_eight g Hk) as (_ & _ & Hst & _).
    rewrite Hst. destruct (cueSinks g); auto.
Qed.


Lemma rulesInv_InitGame : rulesInv (InitGame (F:=F)).
Proof. by repeat split. Qed.

Lemma rulesInv_UpdateGame inp g : rulesInv g -> rulesInv (UpdateGame inp g).
Proof.
  intros (H0 & H1 & Hst).
  assert (Hpl : unassigned (fst (players (UpdateGame inp g))) /\
                unassigned (snd (players (UpdateGame inp g)))).
  { rewrite UpdateGame_players. destruct (keyR inp); [by repeat split|by split]. }
  destruct Hpl as [H0' H1']. split; [done|]. split; [done|].
  unfold UpdateGame.
  set (g1 := recoilStep (HandleInput inp g)).
  assert (Hp1 : players g1 = if keyR inp then players (InitGame (F:=F)) else players g).
  { unfold g1. rewrite recoilStep_players. destruct (keyR inp) eqn:HR.
    - by rewrite HandleInput_reset.
    - by apply HandleInput_players. }
  assert (Hs1 : state g1 <> GAME_WON).
  { unfold g1. rewrite recoilStep_state.
    destruct (HandleInput_state inp g) as [-> | [-> | ->]]; done. }
  fold g1. destruct (_ || _); [|done].
  rewrite settle_state. unfold UpdatePhysics.
  set (g2 := CheckCollisions (moveBalls g1)).
  assert (Hp2 : players g2 = players g1) by done.
  assert (Hs2 : state g2 = state g1) by done.
  assert (Hu2 : unassigned (fst (players g2)) /\ unassigned (snd (players g2))).
  { rewrite Hp2, Hp1. destruct (keyR inp); [by repeat split|by split]. }
  destruct Hu2 as [Hu20 Hu21].
  destruct (CheckPockets_state_unassigned g2 Hu20 Hu21) as [-> | [-> | ->]];
    [congruence|done|done].
Qed.

Lemma reachable_rulesInv g : reachable g -> rulesInv g.
Proof.
  induction 1 as [|inp g _ IH]; [apply rulesInv_InitGame|by apply rulesInv_UpdateGame].
Qed.


Lemma UpdateGame_scanEntry inp g :
  UpdateGame inp g =
    let g1 := recoilStep (HandleInput inp g) in
    if bool_decide (state g1 = GAME_PLAYING) || bool_decide (state g1 = GAME_SCRATCH)
    then settle (CheckPockets (scanEntry inp g)) else g1.
Proof. reflexivity. Qed.

Lemma groupCleared_iff (p : Player.t) :
  groupCleared p = true <->
  (Player.type p = PLAYER_SOLIDS \/ Player.type p = PLAYER_STRIPES) /\
  Player.ballsRemaining p = 0.
Proof.
  unfold groupCleared.
  rewrite orb_true_iff, !andb_true_iff, !bool_decide_eq_true, Z.eqb_eq. tauto.
Qed.

Lemma scanned_above (bs : list (Ball.t F)) lo hi j :
  (hi <= j)%nat -> scanned bs lo hi j = bs !! j.
Proof.
  intros Hj. unfold scanned.
  assert (E : (j <? hi)%nat = false) by (apply Nat.ltb_ge; lia).
  by rewrite E, andb_false_r.
Qed.

Lemma scanned_hit (bs : list (Ball.t F)) lo hi j :
  (lo <= j < hi)%nat -> sinks bs j = true -> scanned bs lo hi j = pocketBall <$> bs !! j.
Proof.
  intros Hj Hs. unfold scanned.
  assert (E1 : (lo <=? j)%nat = true) by (apply Nat.leb_le; lia).
  assert (E2 : (j <? hi)%nat = true) by (apply Nat.ltb_lt; lia).
  by rewrite E1, E2, Hs.
Qed.

(** *** The 8-ball *)

(** C1 (updated.c). Whenever the pocket scan meets an 8-ball inside a
    pocket's capture radius (at index [k], the first such ball), it sets the
    state to [GAME_WON] exactly when the player whose turn it is has a group
    (solids or stripes) with [ballsRemaining = 0], and to [GAME_LOST]
    otherwise, in particular when no group is assigned; and it returns at
    once: the 8-ball is marked pocketed, every ball after it is left as it
    was, no scratch is applied (the turn does not change) and no message is
    written. *)
Theorem CheckPockets_eight_ball g k :
  eightIndex g = Some k ->
  let p := player_at (players g) (currentPlayer g) in
  let g' := CheckPockets g in
  (state g' = GAME_WON <->
     (Player.type p = PLAYER_SOLIDS \/ Player.type p = PLAYER_STRIPES) /\
     Player.ballsRemaining p = 0) /\
  (state g' = GAME_LOST <->
     ~ ((Player.type p = PLAYER_SOLIDS \/ Player.type p = PLAYER_STRIPES) /\
        Player.ballsRemaining p = 0)) /\
  (Player.type p = PLAYER_NONE -> state g' = GAME_LOST) /\
  balls g' !! k = pocketBall <$> balls g !! k /\
  (forall j, (k < j)%nat -> balls g' !! j = balls g !! j) /\
  currentPlayer g' = currentPlayer g /\
  statusMessage g' = statusMessage g /\
  players g' = players g.
Proof.
  intros Hk p g'.
  destruct (CheckPockets_eight g k Hk) as (Hst & Hfr & Hb).
  destruct Hfr as (Hpl & Hcur & Hmsg & _).
  apply eightIndex_Some in Hk as (Hlt & Hk8 & _).
  fold g' in Hst, Hb, Hpl, Hcur, Hmsg.
  assert (Hv : state g' = if groupCleared p then GAME_WON else GAME_LOST) by done.
  pose proof (groupCleared_iff p) as Hgc.
  split; [|split; [|split; [|split; [|split]]]].
  - rewrite Hv, <- Hgc. destruct (groupCleared p); intuition congruence.
  - rewrite Hv, <- Hgc. destruct (groupCleared p); intuition congruence.
  - intros Hnone. rewrite Hv.
    destruct (groupCleared p) eqn:E; [|done].
    apply groupCleared_iff in E as [[E|E] _]; congruence.
  - rewrite Hb. apply scanned_hit; [lia|].
    unfold eightSinks in Hk8. by apply andb_true_iff in Hk8 as [[_ ?]%andb_true_iff _].
  - intros j Hj. rewrite Hb. apply scanned_above. lia.
  - done.
Qed.

(** *** The scratch *)

(** C5, as the code has it. The pocket scan moves the game to
    [GAME_SCRATCH] and hands the turn to the opponent exactly when the cue
    ball is pocketed in the scan and no 8-ball is pocketed in it. When an
    8-ball is pocketed the state is [GAME_WON] or [GAME_LOST] and the turn
    is unchanged, whether or not the cue ball went down too; when neither
    happens the state and the turn are unchanged. *)
Theorem CheckPockets_scratch_iff g :
  ((state (CheckPockets g) = GAME_SCRATCH /\
    currentPlayer (CheckPockets g) = 1 - currentPlayer g)
   <-> (cueSinks g = true /\ eightIndex g = None)) /\
  (eightIndex g <> None ->
     (state (CheckPockets g) = GAME_WON \/ state (CheckPockets g) = GAME_LOST) /\
     currentPlayer (CheckPockets g) = currentPlayer g) /\
  (cueSinks g = false -> eightIndex g = None ->
     state (CheckPockets g) = state g /\
     currentPlayer (CheckPockets g) = currentPlayer g).
Proof.
  destruct (eightIndex g) as [k|] eqn:Hk.
  - destruct (CheckPockets_eight g k Hk) as (Hst & (_ & Hcur & _) & _).
    split; [|split].
    + split; [|by intros [_ ?]]. intros [_ Hc]. rewrite Hcur in Hc. lia.
    + intros _. split; [|done]. rewrite Hst. unfold eightVerdict.
      destruct (groupCleared _); auto.
    + done.
  - destruct (CheckPockets_no_eight g Hk) as (_ & Hcur & Hst & _).
    rewrite Hcur, Hst. destruct (cueSinks g).
    + split; [|split]; [done|done|]. intros; congruence.
    + split; [|split]; [|done|done].
      split; [|by intros [? _]]. intros [_ Hc]. lia.
Qed.

(** The message the scan leaves when a ball went down and no 8-ball did:
    it names [players[currentPlayer]] read after [ApplyScratch] has run. *)
Lemma CheckPockets_message g :
  eightIndex g = None -> anySinks g = true ->
  statusMessage (CheckPockets g)
    = pocketedMessage
        (Player.name
           (player_at (players g)
              (if cueSinks g then 1 - currentPlayer g else currentPlayer g))).
Proof.
  intros Hk Hany.
  destruct (CheckPockets_no_eight g Hk) as (_ & Hcur & _ & Hmsg & _).
  by rewrite Hmsg, Hany, Hcur.
Qed.

(** *** The player records *)

(** C4. In updated.c nothing after [InitGame] writes a player's type or
    [ballsRemaining]: [CheckPockets] leaves the player records as they are,
    and so does a whole frame unless it is a reset, which writes the
    [InitGame] values again. Hence in every state reachable from [InitGame]
    both players have type [PLAYER_NONE] and 7 balls remaining, the state is
    never [GAME_WON], and an 8-ball met by the pocket scan of any frame
    gives [GAME_LOST]. *)
Theorem updated_never_assigns g (Hr : reachable g) :
  (forall g0 : Game F, players (CheckPockets g0) = players g0) /\
  (forall (inp : Input F) (g0 : Game F),
     keyR inp = false -> players (UpdateGame inp g0) = players g0) /\
  Player.type (fst (players g)) = PLAYER_NONE /\
  Player.ballsRemaining (fst (players g)) = 7 /\
  Player.type (snd (players g)) = PLAYER_NONE /\
  Player.ballsRemaining (snd (players g)) = 7 /\
  state g <> GAME_WON /\
  (forall (inp : Input F) k,
     eightIndex (scanEntry inp g) = Some k ->
     state (CheckPockets (scanEntry inp g)) = GAME_LOST).
Proof.
  destruct (reachable_rulesInv g Hr) as ([Ht0 Hr0] & [Ht1 Hr1] & Hst).
  split; [apply CheckPockets_players|].
  split; [intros inp g0 HR; by rewrite UpdateGame_players, HR|].
  repeat (split; [done|]).
  intros inp k Hk.
  destruct (CheckPockets_eight _ k Hk) as (Hv & _).
  rewrite Hv. unfold eightVerdict.
  assert (Hp : players (scanEntry inp g)
               = if keyR inp then players (InitGame (F:=F)) else players g).
  { unfold scanEntry. cbn [players CheckCollisions moveBalls set_balls].
    rewrite recoilStep_players. destruct (keyR inp) eqn:HR.
    - by rewrite HandleInput_reset.
    - by apply HandleInput_players. }
  rewrite unassigned_not_cleared; [done| |]; rewrite Hp;
    destruct (keyR inp); by split.
Qed.

(** *** The rack *)

Lemma ResetBalls_length : length (ResetBalls (F:=F)) = MAX_BALLS.
Proof. reflexivity. Qed.

Lemma rackBall_at_rest idx row col :
  Ball.velocity (rackBall (F:=F) idx row col) = zeroV /\
  Ball.pocketed (rackBall (F:=F) idx row col) = false.
Proof. unfold rackBall. by repeat case_match. Qed.

Lemma ResetBalls_at_rest :
  Forall (fun b => Ball.velocity b = zeroV /\ Ball.pocketed b = false)
         (ResetBalls (F:=F)).
Proof.
  set (P := fun b : Ball.t F => Ball.velocity b = zeroV /\ Ball.pocketed b = false).
  assert (Hrow : forall row cols idx acc,
             Forall P acc -> Forall P (snd (rackRow row cols idx acc))).
  { intros row cols. induction cols as [|col cols IH]; intros idx acc Hacc; [done|].
    cbn [rackRow]. destruct (_ >=? _)%Z; [done|].
    apply IH. apply Forall_app. split; [done|].
    apply Forall_cons. split; [apply rackBall_at_rest|constructor]. }
  assert (Hrows : forall rows idx acc, Forall P acc -> Forall P (rackRows rows idx acc)).
  { induction rows as [|row rows IH]; intros idx acc Hacc; [done|].
    cbn [rackRows]. specialize (Hrow (Z.of_nat row) (map Z.of_nat (seq 0 (S row))) idx acc Hacc).
    destruct (rackRow _ _ _ _) as [idx' acc']. by apply IH. }
  apply Hrows. apply Forall_cons. split; [by split|constructor].
Qed.

(** *** Placing the cue ball *)

Lemma HandleInput_placement (inp : Input F) g :
  keyR inp = false -> state g = GAME_SCRATCH -> mousePressed inp = true ->
  validPlacement (mousePos inp) = true ->
  HandleInput inp g = placeCueBall g (mousePos inp).
Proof.
  intros HR Hs Hp Hv. unfold HandleInput.
  rewrite HR, Hp, Hv. by rewrite bool_decide_eq_true_2.
Qed.

(** A cue ball put down inside a capture radius is taken by the next scan:
    unless an 8-ball goes down in the same scan, the game is back in
    [GAME_SCRATCH] and the turn has passed on. *)
Lemma placeCueBall_in_pocket g (m : Vector2 F) b0 :
  balls g !! 0%nat = Some b0 -> inPocket m = true ->
  let g1 := placeCueBall g m in
  state g1 = GAME_PLAYING /\ currentPlayer g1 = currentPlayer g /\
  balls g1 !! 0%nat
    = Some (Ball.set_velocity (Ball.set_pocketed (Ball.set_position b0 m) false) zeroV) /\
  cueSinks g1 = true /\
  (eightIndex g1 = None ->
   state (CheckPockets g1) = GAME_SCRATCH /\
   currentPlayer (CheckPockets g1) = 1 - currentPlayer g /\
   Ball.pocketed <$> balls (CheckPockets g1) !! 0%nat = Some true).
Proof.
  intros Hb0 Hin g1.
  assert (Hl : balls g1 !! 0%nat
               = Some (Ball.set_velocity
                         (Ball.set_pocketed (Ball.set_position b0 m) false) zeroV)).
  { unfold g1, placeCueBall.
    cbn [balls set_statusMessage set_state set_balls set_cueBallPos cueBallPos].
    rewrite Hb0. apply list_lookup_insert_eq. by eapply lookup_lt_Some. }
  assert (Hc : cueSinks g1 = true).
  { unfold cueSinks, sinks. rewrite Hl.
    cbn [Ball.pocketed Ball.position Ball.set_velocity Ball.set_pocketed
         Ball.set_position negb andb]. done. }
  split; [done|]. split; [done|]. split; [done|]. split; [done|].
  intros Hk.
  destruct (CheckPockets_no_eight g1 Hk) as (_ & Hcur & Hst & _ & Hb & _).
  rewrite Hcur, Hst, Hc, Hb. split; [done|]. split; [done|].
  rewrite scanned_hit; [by rewrite Hl|unfold MAX_BALLS; lia|done].
Qed.

(** *** Whose turn *)

Lemma HandleInput_currentPlayer inp g :
  currentPlayer (HandleInput inp g) = if keyR inp then 0 else currentPlayer g.
Proof.
  unfold HandleInput, placeCueBall, releaseShot.
  destruct (keyR inp); [done|]. by repeat case_match.
Qed.

Lemma recoilStep_currentPlayer g : currentPlayer (recoilStep g) = currentPlayer g.
Proof. unfold recoilStep. by repeat case_match. Qed.

Lemma CheckPockets_currentPlayer g :
  currentPlayer (CheckPockets g) = currentPlayer g \/
  currentPlayer (CheckPockets g) = 1 - currentPlayer g.
Proof.
  destruct (eightIndex g) as [k|] eqn:Hk.
  - left. by apply (CheckPockets_eight g k).
  - destruct (CheckPockets_no_eight g Hk) as (_ & -> & _).
    destruct (cueSinks g); auto.
Qed.

Lemma settle_currentPlayer g :
  currentPlayer (settle g) = currentPlayer g \/
  currentPlayer (settle g) = 1 - currentPlayer g.
Proof. unfold settle, CheckWinCondition, NextTurn. repeat case_match; cbn; auto. Qed.

(** [currentPlayer] is a valid index of [players] throughout. *)
Lemma currentPlayer_range g :
  reachable g -> currentPlayer g = 0 \/ currentPlayer g = 1.
Proof.
  induction 1 as [|inp g _ IH]; [by left|].
  unfold UpdateGame.
  assert (H1 : currentPlayer (recoilStep (HandleInput inp g)) = 0 \/
               currentPlayer (recoilStep (HandleInput inp g)) = 1).
  { rewrite recoilStep_currentPlayer, HandleInput_currentPlayer.
    destruct (keyR inp); auto. }
  destruct (_ || _); [|done].
  set (g1 := recoilStep (HandleInput inp g)) in *.
  unfold UpdatePhysics. set (g2 := CheckCollisions (moveBalls g1)).
  assert (H2 : currentPlayer g2 = currentPlayer g1) by done.
  destruct (settle_currentPlayer (CheckPockets g2)) as [-> | ->];
    destruct (CheckPockets_currentPlayer g2) as [-> | ->]; lia.
Qed.
(** *** The elastic collision, in any arithmetic *)

(** Past the epsilon test, [ResolveElasticCollision] gives each ball the
    other ball's projection on the normal and its own projection on the
    tangent, recomposed; positions and the other fields are kept. *)
Lemma ResolveElasticCollision_recomposes (a b : Ball.t F) :
  let n := collisionNormal (Ball.position a) (Ball.position b) in
  let t := collisionTangent (Ball.position a) (Ball.position b) in
  (Distance (Ball.position b) (Ball.position a) <=? flit 1 10000)%fl = false ->
  ResolveElasticCollision a b =
    (Ball.set_velocity a
       (recompose n t (along (Ball.velocity b) n) (along (Ball.velocity a) t)),
     Ball.set_velocity b
       (recompose n t (along (Ball.velocity a) n) (along (Ball.velocity b) t))).
Proof.
  intros n t Hd. unfold ResolveElasticCollision.
  unfold Distance in Hd. cbv zeta in Hd. cbv zeta. by rewrite Hd.
Qed.

Lemma ResolveElasticCollision_too_close (a b : Ball.t F) :
  (Distance (Ball.position b) (Ball.position a) <=? flit 1 10000)%fl = true ->
  ResolveElasticCollision a b = (a, b).
Proof.
  intros Hd. unfold ResolveElasticCollision.
  unfold Distance in Hd. cbv zeta in Hd. cbv zeta. by rewrite Hd.
Qed.

End Rules.

End UpdatedProofs.

(** ** Properties of previous.c *)

Module PreviousProofs.
Import Previous.

Section Rules.
Context {F : Type} `{Scalar F}.
Implicit Type g : Game F.
Implicit Type b : Ball.t F.

Lemma assignTypes_after_break g t : firstShot g = false -> assignTypes g t = g.
Proof. intros Hf. unfold assignTypes. by rewrite Hf, andb_false_r. Qed.

Lemma countDown_typesOf g t :
  typesOf (countDown g t) = typesOf g /\ firstShot (countDown g t) = firstShot g.
Proof.
  unfold countDown. destruct (_ && _); [|done].
  unfold typesOf, set_player_at, player_at. by destruct (_ =? 0); cbn.
Qed.

Lemma chkPockets_body_typesOf i g c a :
  firstShot g = false ->
  match chkPockets_body i g c a with
  | Go g' _ _ | Ret g' => typesOf g' = typesOf g /\ firstShot g' = false
  end.
Proof.
  intros Hf. unfold chkPockets_body.
  destruct (tblBalls g !! i) as [b|]; [|done].
  destruct (Ball.pocketed b); [done|].
  destruct (existsb _ _); [|done].
  destruct (i =? 0)%nat; [done|].
  rewrite assignTypes_after_break by done.
  destruct (bool_decide (Ball.type b = EIGHT)).
  - by destruct (groupCleared _).
  - destruct (countDown_typesOf (set_tblBalls g (<[i:=pocketBall b]> (tblBalls g)))
                                (Ball.type b)) as [-> ->]. done.
Qed.

Lemma chkPockets_loop_typesOf idxs : forall g c a,
  firstShot g = false ->
  match chkPockets_loop idxs g c a with
  | Go g' _ _ | Ret g' => typesOf g' = typesOf g /\ firstShot g' = false
  end.
Proof.
  induction idxs as [|i idxs IH]; intros g c a Hf; [done|].
  cbn [chkPockets_loop].
  pose proof (chkPockets_body_typesOf i g c a Hf) as Hb.
  destruct (chkPockets_body i g c a) as [g1 c1 a1 | g1]; [|done].
  destruct Hb as [Ht1 Hf1].
  specialize (IH g1 c1 a1 Hf1).
  destruct (chkPockets_loop idxs g1 c1 a1); by rewrite <- Ht1.
Qed.

(** The shot of [handleInput]: a release that is not the null gesture
    clears the break-shot flag as it puts the game in [PLAY]. *)
Lemma releaseShot_clears_firstShot g (m cue : Vector2 F) :
  state (releaseShot g m cue) = PLAY /\ firstShot (releaseShot g m cue) = false
  \/ releaseShot g m cue = set_power (set_pullDist (set_aiming g false) (fint 0)) (fint 0).
Proof. unfold releaseShot. destruct (fltb _ _); [by right|by left]. Qed.

(** C9. In previous.c a call of [chkPockets] entered with [firstShot]
    false leaves both players' [type] and the [assignedType] flag as they
    were, whatever is pocketed: types can be assigned only in a call entered
    with the break-shot flag still set. And the flag is cleared by the shot
    itself: the release branch of [handleInput] either is the null gesture
    or puts the game in [PLAY] with [firstShot] false. *)
Theorem chkPockets_no_assignment_after_break g :
  firstShot g = false ->
  Player.type (fst (players (chkPockets g))) = Player.type (fst (players g)) /\
  Player.type (snd (players (chkPockets g))) = Player.type (snd (players g)) /\
  assignedType (chkPockets g) = assignedType g /\
  (forall (g0 : Game F) (m cue : Vector2 F),
     state (releaseShot g0 m cue) = PLAY /\ firstShot (releaseShot g0 m cue) = false
     \/ releaseShot g0 m cue
        = set_power (set_pullDist (set_aiming g0 false) (fint 0)) (fint 0)).
Proof.
  intros Hf. unfold chkPockets.
  pose proof (chkPockets_loop_typesOf (seq 0 NUM_BALLS) g false false Hf) as Hl.
  assert (Hgoal : Player.type (fst (players (chkPockets g))) = Player.type (fst (players g)) /\
                  Player.type (snd (players (chkPockets g))) = Player.type (snd (players g)) /\
                  assignedType (chkPockets g) = assignedType g).
  { unfold chkPockets.
    destruct (chkPockets_loop _ _ _ _) as [g' c a | g'].
    - destruct Hl as [Ht _]. unfold typesOf in Ht.
      assert (Hs : typesOf (if c then applyScratch g' else g') = typesOf g').
      { by destruct c. }
      unfold typesOf in Hs.
      destruct a; cbn [players assignedType set_status];
        injection Hs as E1 E2 E3; injection Ht as E4 E5 E6;
        rewrite E1, E2, E3; done.
    - destruct Hl as [Ht _]. by injection Ht. }
  unfold chkPockets in Hgoal.
  destruct Hgoal as (H1 & H2 & H3).
  split; [exact H1|]. split; [exact H2|]. split; [exact H3|].
  intros g0 m cue. apply releaseShot_clears_firstShot.
Qed.

(** *** The 8-ball and the counters in previous.c *)

Lemma chkPockets_body_verdict i g c a g' :
  chkPockets_body i g c a = Ret g' ->
  state g' = (if groupCleared (player_at (players g') (curPlayer g'))
              then WON else LOST).
Proof.
  unfold chkPockets_body.
  destruct (tblBalls g !! i) as [b|]; [|done].
  destruct (Ball.pocketed b); [done|].
  destruct (existsb _ _); [|done].
  destruct (i =? 0)%nat; [done|].
  destruct (bool_decide _); [|done].
  destruct (groupCleared _) eqn:E; intros [= <-];
    cbn [state players curPlayer set_state]; by rewrite E.
Qed.

Lemma assignTypes_frame g t :
  curPlayer (assignTypes g t) = curPlayer g /\
  tblBalls (assignTypes g t) = tblBalls g.
Proof. unfold assignTypes. destruct (_ && _); [|done]. by destruct (bool_decide _). Qed.

Lemma countDown_frame g t :
  curPlayer (countDown g t) = curPlayer g /\ tblBalls (countDown g t) = tblBalls g.
Proof. unfold countDown. by destruct (_ && _). Qed.

Lemma chkPockets_body_curPlayer i g c a :
  match chkPockets_body i g c a with
  | Go g' _ _ | Ret g' => curPlayer g' = curPlayer g
  end.
Proof.
  unfold chkPockets_body.
  destruct (tblBalls g !! i) as [b|]; [|done].
  destruct (Ball.pocketed b); [done|].
  destruct (existsb _ _); [|done].
  destruct (i =? 0)%nat; [done|].
  set (g1 := set_tblBalls g _).
  destruct (assignTypes_frame g1 (Ball.type b)) as [Hc _].
  destruct (bool_decide _).
  - by destruct (groupCleared _).
  - destruct (countDown_frame (assignTypes g1 (Ball.type b)) (Ball.type b)) as [-> _].
    done.
Qed.

Lemma chkPockets_body_balls i g c a j :
  i <> j ->
  match chkPockets_body i g c a with
  | Go g' _ _ | Ret g' => tblBalls g' !! j = tblBalls g !! j
  end.
Proof.
  intros Hne. unfold chkPockets_body.
  destruct (tblBalls g !! i) as [b|]; [|done].
  destruct (Ball.pocketed b); [done|].
  destruct (existsb _ _); [|done].
  assert (Hb : forall b', <[i := b']> (tblBalls g) !! j = tblBalls g !! j)
    by (intros; by apply list_lookup_insert_ne).
  destruct (i =? 0)%nat; [by apply Hb|].
  set (g1 := set_tblBalls g _).
  destruct (assignTypes_frame g1 (Ball.type b)) as [_ Hc].
  destruct (bool_decide _).
  - destruct (groupCleared _); cbn [tblBalls set_state]; rewrite Hc; by apply Hb.
  - destruct (countDown_frame (assignTypes g1 (Ball.type b)) (Ball.type b)) as [_ ->].
    rewrite Hc. by apply Hb.
Qed.

Lemma chkPockets_body_eight i g c a :
  eightSinks (tblBalls g) i = true -> exists g', chkPockets_body i g c a = Ret g'.
Proof.
  unfold eightSinks, sinks, chkPockets_body. intros He.
  destruct (tblBalls g !! i) as [b|]; [|by rewrite andb_false_r in He].
  apply andb_true_iff in He as [[Hi Hs]%andb_true_iff Ht].
  apply andb_true_iff in Hs as [Hp Hin].
  apply negb_true_iff in Hp, Hi. rewrite Hp, Hin, Hi, Ht.
  destruct (groupCleared _); eauto.
Qed.

Lemma chkPockets_loop_eight n : forall s g c a k,
  (s <= k < s + n)%nat -> eightSinks (tblBalls g) k = true ->
  exists g', chkPockets_loop (seq s n) g c a = Ret g' /\
    curPlayer g' = curPlayer g /\
    state g' = (if groupCleared (player_at (players g') (curPlayer g'))
                then WON else LOST).
Proof.
  induction n as [|n IH]; intros s g c a k Hk He; [lia|].
  cbn [seq chkPockets_loop].
  pose proof (chkPockets_body_curPlayer s g c a) as Hcur.
  destruct (chkPockets_body s g c a) as [g1 c1 a1 | g1] eqn:Hbody.
  - destruct (decide (s = k)) as [->|Hne].
    { destruct (chkPockets_body_eight k g c a He) as [g' Hg']. congruence. }
    pose proof (chkPockets_body_balls s g c a k Hne) as Hb. rewrite Hbody in Hb.
    destruct (IH (S s) g1 c1 a1 k) as (g' & Hl & Hc & Hv); [lia| |].
    + unfold eightSinks, sinks in *. by rewrite Hb.
    + exists g'. split; [done|]. split; [congruence|done].
  - exists g1. split; [done|]. split; [done|].
    by eapply chkPockets_body_verdict.
Qed.

(** C1 for previous.c: when an 8-ball is inside a capture radius the scan
    returns from the loop with [WON] exactly if the record of the player
    whose turn it is, as the returned game holds it, has a group and no ball
    remaining, and [LOST] otherwise; the turn is not changed. *)
Lemma chkPockets_eight_ball g k :
  (k < NUM_BALLS)%nat -> eightSinks (tblBalls g) k = true ->
  curPlayer (chkPockets g) = curPlayer g /\
  state (chkPockets g)
    = (if groupCleared (player_at (players (chkPockets g)) (curPlayer (chkPockets g)))
       then WON else LOST).
Proof.
  intros Hk He. unfold chkPockets.
  destruct (chkPockets_loop_eight NUM_BALLS 0 g false false k) as (g' & -> & Hc & Hv);
    [lia|done|done].
Qed.

(** The counter of the owner of a pocketed group ball goes down by exactly
    one when it is positive, and nothing else changes in the records. *)
Lemma countDown_exact g (t : BallType) :
  let o := playerIdxForType g t in
  (o = 0 \/ o = 1)%Z -> (0 < Player.remain (player_at (players g) o))%Z ->
  Player.remain (player_at (players (countDown g t)) o)
    = (Player.remain (player_at (players g) o) - 1)%Z /\
  Player.remain (player_at (players (countDown g t)) (1 - o))
    = Player.remain (player_at (players g) (1 - o)).
Proof.
  intros o Ho Hpos. unfold countDown. fold o.
  assert (E1 : (o >=? 0)%Z = true) by (apply Z.geb_le; lia).
  assert (E2 : (Player.remain (player_at (players g) o) >? 0)%Z = true)
    by (apply Z.gtb_lt; lia).
  rewrite E1, E2. cbn [andb players set_players].
  unfold set_player_at, player_at. by destruct Ho as [-> | ->].
Qed.

Lemma countDown_nonneg g t : remainNonneg g -> remainNonneg (countDown g t).
Proof.
  intros [H0 H1]. unfold countDown, remainNonneg.
  destruct (_ >=? 0)%Z; [|done]. cbn [andb].
  destruct (_ >? 0)%Z eqn:E; [|done]. apply Z.gtb_lt in E.
  unfold set_player_at, player_at in *.
  destruct (_ =? 0)%Z; cbn; lia.
Qed.

Lemma assignTypes_nonneg g t : remainNonneg g -> remainNonneg (assignTypes g t).
Proof.
  intros [H0 H1]. unfold assignTypes, remainNonneg.
  destruct (_ && _); [|done].
  unfold set_player_at, player_at.
  by repeat case_match; simplify_eq; cbn.
Qed.

Lemma chkPockets_body_nonneg i g c a :
  remainNonneg g ->
  match chkPockets_body i g c a with
  | Go g' _ _ | Ret g' => remainNonneg g'
  end.
Proof.
  intros Hn. unfold chkPockets_body.
  destruct (tblBalls g !! i) as [b|]; [|done].
  destruct (Ball.pocketed b); [done|].
  destruct (existsb _ _); [|done].
  destruct (i =? 0)%nat; [done|].
  set (g1 := set_tblBalls g _).
  assert (H1 : remainNonneg (assignTypes g1 (Ball.type b))) by by apply assignTypes_nonneg.
  destruct (bool_decide _).
  - by destruct (groupCleared _).
  - by apply countDown_nonneg.
Qed.

(** The counters never become negative in the scan. *)
Lemma chkPockets_nonneg g : remainNonneg g -> remainNonneg (chkPockets g).
Proof.
  intros Hn. unfold chkPockets.
  assert (Hl : forall idxs g c a, remainNonneg g ->
             match chkPockets_loop idxs g c a with
             | Go g' _ _ | Ret g' => remainNonneg g'
             end).
  { induction idxs as [|i idxs IH]; intros g0 c a H0; [done|].
    cbn [chkPockets_loop].
    pose proof (chkPockets_body_nonneg i g0 c a H0) as Hb.
    destruct (chkPockets_body i g0 c a); [by apply IH|done]. }
  specialize (Hl (seq 0 NUM_BALLS) g false false Hn).
  destruct (chkPockets_loop _ _ _ _) as [g' c a|g']; [|done].
  by destruct c, a.
Qed.

Lemma initGame_remain :
  Player.remain (fst (players (initGame (F:=F)))) = 7%Z /\
  Player.remain (snd (players (initGame (F:=F)))) = 7%Z.
Proof. done. Qed.
End Rules.

End PreviousProofs.

(** ** Properties of the physics, in exact arithmetic *)

Module PhysicsProofs.
Import Updated Exact.
Local Open Scope R_scope.

Lemma sumsq_nonneg (a b : R) : 0 <= a * a + b * b.
Proof. nra. Qed.

Lemma norm_nonneg (v : Vector2 R) : 0 <= norm v.
Proof. apply sqrt_pos. Qed.

Lemma norm_sq (v : Vector2 R) : norm v * norm v = x v * x v + y v * y v.
Proof. unfold norm. apply sqrt_sqrt, sumsq_nonneg. Qed.

Lemma norm_zeroV : norm (zeroV (F:=R)) = 0.
Proof. unfold norm. cbn. rewrite Rmult_0_l, Rplus_0_l. apply sqrt_0. Qed.

(** Scaling a vector to length [m]. *)
Lemma norm_rescale (vx vy mag m : R) :
  0 <= m -> 0 < mag -> mag * mag = vx * vx + vy * vy ->
  norm (mkVector2 (vx / mag * m) (vy / mag * m)) = m.
Proof.
  intros Hm Hmag Hsq. unfold norm. cbn [x y].
  replace (vx / mag * m * (vx / mag * m) + vy / mag * m * (vy / mag * m))
    with (m * m * ((vx * vx + vy * vy) / (mag * mag))) by (field; lra).
  rewrite <- Hsq.
  replace (mag * mag / (mag * mag)) with 1 by (field; lra).
  rewrite Rmult_1_r. by apply sqrt_square.
Qed.

Lemma Rltb_true (a b : R) : Rltb a b = true <-> a < b.
Proof. unfold Rltb. destruct (Rlt_dec a b); split; (done || lra). Qed.

Lemma Rltb_false (a b : R) : Rltb a b = false <-> b <= a.
Proof. unfold Rltb. destruct (Rlt_dec a b); split; (done || lra). Qed.

Lemma Rleb_true (a b : R) : Rleb a b = true <-> a <= b.
Proof. unfold Rleb. destruct (Rle_dec a b); split; (done || lra). Qed.

Lemma Rleb_false (a b : R) : Rleb a b = false <-> b < a.
Proof. unfold Rleb. destruct (Rle_dec a b); split; (done || lra). Qed.

(** [ClampBallSpeed] bounds the speed by its second argument. *)
Lemma ClampBallSpeed_speed (b : Ball.t R) (maxSpeed : R) :
  0 <= maxSpeed -> speed (ClampBallSpeed b maxSpeed) <= maxSpeed.
Proof.
  intros Hm. unfold ClampBallSpeed. cbn [fltb fsqrt fadd fmul fdiv Scalar_R].
  fold (norm (Ball.velocity b)).
  destruct (Rltb maxSpeed (norm (Ball.velocity b))) eqn:E.
  - apply Rltb_true in E. unfold speed. cbn [Ball.velocity Ball.set_velocity].
    rewrite norm_rescale; [lra|done|lra|apply norm_sq].
  - apply Rltb_false in E. done.
Qed.

Lemma ClampBallSpeed_pocketed (b : Ball.t R) m :
  Ball.pocketed (ClampBallSpeed b m) = Ball.pocketed b.
Proof. unfold ClampBallSpeed. by destruct (fltb _ _). Qed.

Lemma MAX_BALL_SPEED_R : MAX_BALL_SPEED (F:=R) = 26.
Proof. reflexivity. Qed.

(** The motion step leaves a ball on the table no faster than
    [MAX_BALL_SPEED] and does not touch a pocketed ball. *)
Lemma moveBall_speed (b : Ball.t R) :
  Ball.pocketed b = false -> speed (moveBall b) <= 26.
Proof.
  intros Hp. unfold moveBall. rewrite Hp.
  repeat match goal with
         | |- context [let '(_, _) := if ?c then _ else _ in _] => destruct c
         end;
    (rewrite <- MAX_BALL_SPEED_R at 2 || rewrite <- MAX_BALL_SPEED_R);
    apply ClampBallSpeed_speed; rewrite MAX_BALL_SPEED_R; lra.
Qed.

Lemma moveBall_pocketed (b : Ball.t R) : Ball.pocketed b = true -> moveBall b = b.
Proof. intros Hp. unfold moveBall. by rewrite Hp. Qed.

Lemma moveBalls_speed (g : Game R) :
  Forall (fun b => Ball.pocketed b = true -> speed b <= 26) (balls g) ->
  Forall (fun b => speed b <= 26) (balls (moveBalls g)).
Proof.
  intros Hall. cbn [balls moveBalls set_balls].
  apply Forall_fmap. eapply Forall_impl; [exact Hall|].
  intros b Hb. cbn. destruct (Ball.pocketed b) eqn:Hp.
  - rewrite moveBall_pocketed by done. by apply Hb.
  - by apply moveBall_speed.
Qed.

Lemma collidePair_speed i j (bs : list (Ball.t R)) :
  Forall (fun b => speed b <= 26) bs ->
  Forall (fun b => speed b <= 26) (collidePair i j bs).
Proof.
  intros Hall. unfold collidePair.
  destruct (bs !! i) as [bi|]; [|done].
  destruct (bs !! j) as [bj|]; [|done].
  destruct (Ball.pocketed bj); [done|].
  destruct (_ && _); [|done].
  destruct (ResolveElasticCollision _ _) as [bi2 bj2].
  apply Forall_insert; [apply Forall_insert; [done|]|];
    apply (ClampBallSpeed_speed _ 26); lra.
Qed.

Lemma collideRow_speed (bs : list (Ball.t R)) i :
  Forall (fun b => speed b <= 26) bs ->
  Forall (fun b => speed b <= 26) (collideRow bs i).
Proof.
  intros Hall. unfold collideRow.
  destruct (bs !! i) as [bi|]; [|done].
  destruct (Ball.pocketed bi); [done|].
  generalize (seq (S i) (MAX_BALLS - S i)). intros js.
  revert bs Hall. induction js as [|j js IH]; intros bs Hall; [done|].
  cbn [fold_left]. apply IH. by apply collidePair_speed.
Qed.

(** Collision resolution keeps every ball within [MAX_BALL_SPEED]. *)
Lemma CheckCollisions_speed (g : Game R) :
  Forall (fun b => speed b <= 26) (balls g) ->
  Forall (fun b => speed b <= 26) (balls (CheckCollisions g)).
Proof.
  cbn [balls CheckCollisions set_balls].
  generalize (seq 0 MAX_BALLS) as idxs. intros idxs. generalize (balls g) as bs.
  induction idxs as [|i idxs IH]; intros bs Hall; [done|].
  cbn [fold_left]. apply IH. by apply collideRow_speed.
Qed.

Lemma speed_pocketBall (b : Ball.t R) : speed (pocketBall b) = 0.
Proof. unfold speed, pocketBall. cbn [Ball.velocity Ball.set_velocity]. apply norm_zeroV. Qed.

Lemma CheckPockets_speed (g : Game R) :
  Forall (fun b => speed b <= 26) (balls g) ->
  Forall (fun b => speed b <= 26) (balls (CheckPockets g)).
Proof.
  intros Hall.
  assert (Hsc : forall lo hi j b', scanned (balls g) lo hi j = Some b' -> speed b' <= 26).
  { intros lo hi j b' Hb'. unfold scanned in Hb'.
    destruct (_ && _).
    - destruct (balls g !! j) as [b|]; [|done]. injection Hb' as <-.
      rewrite speed_pocketBall. lra.
    - rewrite Forall_lookup in Hall. by eapply Hall. }
  apply Forall_lookup. intros j b' Hj.
  destruct (eightIndex g) as [k|] eqn:Hk.
  - destruct (UpdatedProofs.CheckPockets_eight g k Hk) as (_ & _ & Hb).
    rewrite Hb in Hj. by eapply Hsc.
  - destruct (UpdatedProofs.CheckPockets_no_eight g Hk) as (_ & _ & _ & _ & Hb & _).
    rewrite Hb in Hj. by eapply Hsc.
Qed.

Lemma speedInv_InitGame : speedInv InitGame.
Proof.
  split; [|cbn; lra]. cbn [balls InitGame].
  eapply Forall_impl; [apply UpdatedProofs.ResetBalls_at_rest|].
  intros b [Hv _]. unfold speed. rewrite Hv, norm_zeroV. lra.
Qed.

Lemma Distance_nonneg (p q : Vector2 R) : 0 <= Distance p q.
Proof. unfold Distance. apply sqrt_pos. Qed.

Lemma speedInv_placeCueBall (g : Game R) (m : Vector2 R) :
  speedInv g -> speedInv (placeCueBall g m).
Proof.
  intros [Hall Hpull]. split; [|done].
  cbn [balls placeCueBall set_statusMessage set_state set_balls set_cueBallPos].
  destruct (balls g !! 0%nat) as [b0|]; [|done].
  apply Forall_insert; [done|].
  unfold speed. cbn [Ball.velocity Ball.set_velocity]. rewrite norm_zeroV. lra.
Qed.

Lemma speedInv_releaseShot (g : Game R) (m cue : Vector2 R) :
  speedInv g -> speedInv (releaseShot g m cue).
Proof.
  intros [Hall Hpull]. unfold releaseShot.
  cbn [fltb fsqrt fadd fsub fmul fdiv flit fint Scalar_R stickPullPixels set_aiming].
  set (dx := x m - x cue). set (dy := y m - y cue).
  set (len := sqrt (dx * dx + dy * dy)).
  destruct (Rltb len (IZR 1 / IZR 1000)) eqn:Elen; [by split|].
  apply Rltb_false in Elen.
  assert (Hlen : 0 < len) by lra.
  assert (Hsq : len * len = dx * dx + dy * dy) by apply sqrt_sqrt, sumsq_nonneg.
  split; [|done].
  cbn [balls set_power set_recoilTimer set_stickRecoil set_firstShot set_state
       set_balls set_aiming].
  destruct (balls g !! 0%nat) as [b0|]; [|done].
  apply Forall_insert; [done|].
  unfold speed. cbn [Ball.velocity Ball.set_velocity].
  unfold MAX_POWER_PIXELS, MAX_SHOT_SPEED. cbn [fint Scalar_R].
  set (s0 := stickPullPixels g / 160 * 22).
  assert (Hs0 : 0 <= s0) by (unfold s0; lra).
  destruct (Rltb 22 s0) eqn:Es.
  - rewrite (norm_rescale dx dy len 22); [lra|lra|done|done].
  - apply Rltb_false in Es.
    rewrite (norm_rescale dx dy len s0); [lra|done|done|done].
Qed.

Lemma speedInv_HandleInput (inp : Input R) (g : Game R) :
  speedInv g -> speedInv (HandleInput inp g).
Proof.
  intros Hinv. unfold HandleInput.
  destruct (keyR inp); [apply speedInv_InitGame|].
  destruct (bool_decide (state g = GAME_SCRATCH)).
  { destruct (mousePressed inp); [|done].
    destruct (validPlacement _); [by apply speedInv_placeCueBall|done]. }
  destruct (ballsMoving g); [done|].
  set (cue := match balls g !! 0%nat with
              | Some b0 => if Ball.pocketed b0 then cueBallPos g else Ball.position b0
              | None => cueBallPos g
              end).
  set (g1 := if mousePressed inp && _ then _ else g).
  assert (H1 : speedInv g1).
  { unfold g1. destruct (_ && _); [|done].
    destruct Hinv as [Hall _]. split; [done|]. cbn. lra. }
  clearbody g1.
  set (g2 := if mouseDown inp && aiming g1 then _ else g1).
  assert (H2 : speedInv g2).
  { unfold g2. destruct (mouseDown inp && aiming g1); [|done].
    destruct H1 as [Hall _]. split; [done|].
    cbn [stickPullPixels set_power set_stickPullPixels fltb Scalar_R].
    unfold MAX_POWER_PIXELS. cbn [fint Scalar_R].
    pose proof (Distance_nonneg (mousePos inp) cue).
    destruct (Rltb _ _); lra. }
  clearbody g2.
  destruct (_ && _); [by apply speedInv_releaseShot|done].
Qed.

Lemma speedInv_recoilStep (g : Game R) : speedInv g -> speedInv (recoilStep g).
Proof.
  intros [Hall Hpull]. unfold recoilStep.
  destruct (stickRecoil g); [|done].
  cbn [recoilTimer set_recoilTimer].
  destruct (fleb _ _); [split; [done|cbn; lra]|].
  assert (Hp : 0 <= stickPullPixels g * (IZR 92 / IZR 100)) by lra.
  destruct (fltb _ _); split; done.
Qed.

Lemma speedInv_settle (g : Game R) : speedInv g -> speedInv (settle g).
Proof.
  intros Hinv. unfold settle, CheckWinCondition, NextTurn.
  by repeat case_match.
Qed.

Lemma speedInv_UpdatePhysics (g : Game R) : speedInv g -> speedInv (UpdatePhysics g).
Proof.
  intros [Hall Hpull]. unfold UpdatePhysics. split.
  - apply CheckPockets_speed, CheckCollisions_speed, moveBalls_speed.
    eapply Forall_impl; [exact Hall|]. auto.
  - destruct (UpdatedProofs.CheckPockets_frame (CheckCollisions (moveBalls g)))
      as (_ & _ & _ & _ & _ & _ & _ & Hp & _).
    by rewrite Hp.
Qed.

Lemma speedInv_UpdateGame (inp : Input R) (g : Game R) :
  speedInv g -> speedInv (UpdateGame inp g).
Proof.
  intros Hinv. unfold UpdateGame.
  pose proof (speedInv_recoilStep _ (speedInv_HandleInput inp g Hinv)) as H1.
  destruct (_ || _); [|done].
  by apply speedInv_settle, speedInv_UpdatePhysics.
Qed.

Lemma reachable_speedInv (g : Game R) : reachable g -> speedInv g.
Proof.
  induction 1 as [|inp g _ IH]; [apply speedInv_InitGame|by apply speedInv_UpdateGame].
Qed.

(** The bound on the speed in exact arithmetic. In every frame of every
    execution, each ball's velocity has magnitude at most [MAX_BALL_SPEED]
    (26) right after the motion pass of [UpdatePhysics] and right after
    [CheckCollisions]; for a ball on the table the bound after the motion
    pass needs nothing about the state the frame started in. *)
Lemma speed_bounded_after_motion_and_collisions
    (g : Game R) (Hr : reachable g) (inp : Input R) :
  let g1 := recoilStep (HandleInput inp g) in
  Forall (fun b => norm (Ball.velocity b) <= 26) (balls (moveBalls g1)) /\
  Forall (fun b => norm (Ball.velocity b) <= 26) (balls (CheckCollisions (moveBalls g1))) /\
  (forall b : Ball.t R,
     Ball.pocketed b = false -> norm (Ball.velocity (moveBall b)) <= 26).
Proof.
  intros g1.
  assert (H1 : speedInv g1).
  { apply speedInv_recoilStep, speedInv_HandleInput. by apply reachable_speedInv. }
  destruct H1 as [Hall _].
  assert (Hm : Forall (fun b => speed b <= 26) (balls (moveBalls g1))).
  { apply moveBalls_speed. eapply Forall_impl; [exact Hall|]. auto. }
  split; [done|]. split; [by apply CheckCollisions_speed|].
  intros b Hb. by apply moveBall_speed.
Qed.

(** *** The elastic collision *)

Lemma unit_normal (dx dy d : R) :
  0 < d -> d * d = dx * dx + dy * dy ->
  dx / d * (dx / d) + dy / d * (dy / d) = 1.
Proof.
  intros Hd Hsq.
  replace (dx / d * (dx / d) + dy / d * (dy / d))
    with ((dx * dx + dy * dy) / (d * d)) by (field; lra).
  rewrite <- Hsq. field. lra.
Qed.

(** Recomposing from swapped normal parts and kept tangential parts, for a
    unit normal [(nx, ny)] and the tangent [(-ny, nx)]. *)
Lemma recompose_normal (nx ny un ut : R) :
  nx * nx + ny * ny = 1 ->
  (un * nx + ut * - ny) * nx + (un * ny + ut * nx) * ny = un.
Proof.
  intros Hn.
  transitivity (un * (nx * nx + ny * ny)); [ring|]. rewrite Hn. ring.
Qed.

Lemma recompose_tangent (nx ny un ut : R) :
  nx * nx + ny * ny = 1 ->
  (un * nx + ut * - ny) * - ny + (un * ny + ut * nx) * nx = ut.
Proof.
  intros Hn.
  transitivity (ut * (nx * nx + ny * ny)); [ring|]. rewrite Hn. ring.
Qed.

(** The exchange in exact arithmetic. For two balls whose centres are more
    than 0.0001 apart, [ResolveElasticCollision] exchanges the components of
    the two velocities along the unit normal of the line of centres and
    keeps each ball's component along the tangent; so the sum of the two
    normal components is the same before and after. Positions are not
    touched. *)
Lemma ResolveElasticCollision_swaps_normal (a b : Ball.t R) :
  1 / 10000 < Distance (Ball.position b) (Ball.position a) ->
  let n := normal (Ball.position a) (Ball.position b) in
  let t := tangent (Ball.position a) (Ball.position b) in
  let a' := fst (ResolveElasticCollision a b) in
  let b' := snd (ResolveElasticCollision a b) in
  dot (Ball.velocity a') n = dot (Ball.velocity b) n /\
  dot (Ball.velocity b') n = dot (Ball.velocity a) n /\
  dot (Ball.velocity a') t = dot (Ball.velocity a) t /\
  dot (Ball.velocity b') t = dot (Ball.velocity b) t /\
  dot (Ball.velocity a') n + dot (Ball.velocity b') n
    = dot (Ball.velocity a) n + dot (Ball.velocity b) n /\
  Ball.position a' = Ball.position a /\ Ball.position b' = Ball.position b.
Proof.
  intros Hd n t a' b'.
  unfold a', b', ResolveElasticCollision, t, tangent, n, normal, dot, Distance in *.
  cbn [fleb fsqrt fadd fsub fmul fdiv fopp flit Scalar_R x y] in *.
  set (dx := x (Ball.position b) - x (Ball.position a)) in *.
  set (dy := y (Ball.position b) - y (Ball.position a)) in *.
  set (d := sqrt (dx * dx + dy * dy)) in *.
  destruct (Rleb d (IZR 1 / IZR 10000)) eqn:E.
  { apply Rleb_true in E. lra. }
  assert (Hpos : 0 < d) by lra.
  assert (Hsq : d * d = dx * dx + dy * dy) by apply sqrt_sqrt, sumsq_nonneg.
  pose proof (unit_normal dx dy d Hpos Hsq) as Hn.
  cbn [fst snd Ball.velocity Ball.position Ball.set_velocity x y].
  set (nx := dx / d) in *. set (ny := dy / d) in *. clearbody nx ny.
  rewrite !recompose_normal, !recompose_tangent by done.
  repeat split; ring.
Qed.

(** The same for [resolveElastic] of previous.c, whose arithmetic is
    identical. *)
Lemma resolveElastic_swaps_normal (a b : Previous.Ball.t R) :
  1 / 10000 < Distance (Previous.Ball.pos b) (Previous.Ball.pos a) ->
  let n := normal (Previous.Ball.pos a) (Previous.Ball.pos b) in
  let t := tangent (Previous.Ball.pos a) (Previous.Ball.pos b) in
  let a' := fst (Previous.resolveElastic a b) in
  let b' := snd (Previous.resolveElastic a b) in
  dot (Previous.Ball.vel a') n = dot (Previous.Ball.vel b) n /\
  dot (Previous.Ball.vel b') n = dot (Previous.Ball.vel a) n /\
  dot (Previous.Ball.vel a') t = dot (Previous.Ball.vel a) t /\
  dot (Previous.Ball.vel b') t = dot (Previous.Ball.vel b) t /\
  dot (Previous.Ball.vel a') n + dot (Previous.Ball.vel b') n
    = dot (Previous.Ball.vel a) n + dot (Previous.Ball.vel b) n.
Proof.
  intros Hd n t a' b'.
  unfold a', b', Previous.resolveElastic, t, tangent, n, normal, dot, Distance in *.
  cbn [fleb fsqrt fadd fsub fmul fdiv fopp flit Scalar_R x y] in *.
  set (dx := x (Previous.Ball.pos b) - x (Previous.Ball.pos a)) in *.
  set (dy := y (Previous.Ball.pos b) - y (Previous.Ball.pos a)) in *.
  set (d := sqrt (dx * dx + dy * dy)) in *.
  destruct (Rleb d (IZR 1 / IZR 10000)) eqn:E.
  { apply Rleb_true in E. lra. }
  assert (Hpos : 0 < d) by lra.
  assert (Hsq : d * d = dx * dx + dy * dy) by apply sqrt_sqrt, sumsq_nonneg.
  pose proof (unit_normal dx dy d Hpos Hsq) as Hn.
  cbn [fst snd Previous.Ball.vel Previous.Ball.pos Previous.Ball.set_vel x y].
  set (nx := dx / d) in *. set (ny := dy / d) in *. clearbody nx ny.
  rewrite !recompose_normal, !recompose_tangent by done.
  repeat split; ring.
Qed.

Lemma Distance_ballRight_ballLeft :
  Distance (Ball.position ballRight) (Ball.position ballLeft) = 30.
Proof.
  unfold Distance. cbn [fsqrt fadd fsub fmul Scalar_R x y Ball.position ballRight ballLeft].
  replace ((130 - 100) * (130 - 100) + (100 - 100) * (100 - 100)) with (30 * 30) by ring.
  apply sqrt_square. lra.
Qed.

End PhysicsProofs.

(** ** Executions and tables of updated.c and previous.c, run in binary32 *)

Module Scenarios.
Import Updated Tables.

Lemma run_app (l1 l2 : list (Input binary32)) g :
  run (l1 ++ l2) g = run l2 (run l1 g).
Proof. revert g. induction l1 as [|inp l1 IH]; intros g; [done|]. apply IH. Qed.

Lemma reachable_run (inps : list (Input binary32)) g :
  reachable g -> reachable (run inps g).
Proof.
  revert g. induction inps as [|inp inps IH]; intros g Hr; [done|].
  apply IH. by constructor.
Qed.

Lemma run_breakShot : run breakShot InitGame = cornerApproach.
Proof. vm_compute. reflexivity. Qed.

Lemma frame_scratch : UpdateGame idle cornerApproach = scratchTable.
Proof. vm_compute. reflexivity. Qed.

Lemma run_placeAndShoot : run placeAndShoot scratchTable = pocketApproach.
Proof. vm_compute. reflexivity. Qed.

Lemma frame_stripeDown : UpdateGame idle pocketApproach = stripeDownTable.
Proof. vm_compute. reflexivity. Qed.

Lemma reachable_cornerApproach : reachable cornerApproach.
Proof. rewrite <- run_breakShot. apply reachable_run. constructor. Qed.

Lemma reachable_scratchTable : reachable scratchTable.
Proof. rewrite <- frame_scratch. constructor. apply reachable_cornerApproach. Qed.

Lemma reachable_pocketApproach : reachable pocketApproach.
Proof. rewrite <- run_placeAndShoot. apply reachable_run, reachable_scratchTable. Qed.

Lemma run_twoShots : run twoShots InitGame = stripeDownTable.
Proof.
  unfold twoShots. rewrite !run_app, run_breakShot. cbn [run].
  rewrite frame_scratch, run_placeAndShoot. apply frame_stripeDown.
Qed.


(** *** The 8-ball on a table *)

(** Witness of C1: the 8-ball in the lower right pocket of [eightTable],
    nobody assigned; the scan gives [GAME_LOST] and leaves balls 9 to 15
    alone. *)
Lemma CheckPockets_eight_ball_witness :
  eightIndex eightTable = Some 8%nat /\
  state (CheckPockets eightTable) = GAME_LOST /\
  (forall j, (8 < j)%nat ->
     balls (CheckPockets eightTable) !! j = balls eightTable !! j).
Proof.
  assert (Hk : eightIndex eightTable = Some 8%nat) by (vm_compute; reflexivity).
  split; [exact Hk|].
  destruct (UpdatedProofs.CheckPockets_eight_ball eightTable 8 Hk)
    as (_ & _ & Hnone & _ & Hafter & _).
  split; [apply Hnone; reflexivity|exact Hafter].
Defined.

(** *** Cue ball and 8-ball in the same scan *)

(** Against C5 as stated: on [cueEightTable] the cue ball is pocketed by
    the scan, yet the state after the scan, and after the whole frame, is
    [GAME_LOST], not [GAME_SCRATCH], the turn stays with player 0 and no
    scratch message is there. *)
Lemma scratch_skipped_when_eight_sinks :
  cueSinks cueEightTable = true /\
  Ball.pocketed <$> balls cueEightTable !! 0%nat = Some false /\
  Ball.pocketed <$> balls (CheckPockets cueEightTable) !! 0%nat = Some true /\
  state (CheckPockets cueEightTable) = GAME_LOST /\
  currentPlayer (CheckPockets cueEightTable) = currentPlayer cueEightTable /\
  statusMessage (CheckPockets cueEightTable) = statusMessage cueEightTable /\
  state (UpdateGame idle cueEightTable) = GAME_LOST /\
  currentPlayer (UpdateGame idle cueEightTable) = 0.
Proof. vm_compute. repeat split; reflexivity. Qed.

(** *** The break that scratches *)

(** C6 on an execution. Player 1 breaks and the cue ball runs into the
    corner pocket. In the frame that pockets it, it is player 1 (index 0)
    who has the turn when the frame is processed, the cue ball is the only
    ball that goes down and no 8-ball does; the message the scan leaves
    names player 2. *)
Theorem scratch_message_names_opponent :
  let before := run breakShot InitGame in
  let after := UpdateGame idle before in
  reachable before /\
  state before = GAME_PLAYING /\ currentPlayer before = 0 /\
  Player.name (player_at (players before) (currentPlayer before)) = "Player 1"%string /\
  cueSinks (scanEntry idle before) = true /\
  eightIndex (scanEntry idle before) = None /\
  state after = GAME_SCRATCH /\ currentPlayer after = 1 /\
  statusMessage after = "Player 2 pocketed a ball!"%string.
Proof.
  cbv zeta. rewrite run_breakShot.
  split; [apply reachable_cornerApproach|].
  rewrite frame_scratch. vm_compute. repeat split; reflexivity.
Qed.

(** *** The first object ball *)

(** C2 on an execution of updated.c. After the scratch player 2 places the
    cue ball and shoots; ball 10, a stripe, is the first object ball of the
    rack to be pocketed (before that frame every ball is on the table, after
    it ball 10 is the one that is not). Player 2 is at the table, and both
    players are still [PLAYER_NONE]: nobody got the stripes. *)
Theorem first_stripe_assigns_no_group :
  let before := run ((breakShot ++ [idle]) ++ placeAndShoot) InitGame in
  let after := UpdateGame idle before in
  after = run twoShots InitGame /\ reachable after /\
  Forall (fun b => Ball.pocketed b = false) (balls before) /\
  filter (fun b => Ball.pocketed b = true) (balls after)
    = match balls after !! 10%nat with Some b => [b] | None => [] end /\
  Ball.type <$> balls after !! 10%nat = Some BALL_STRIPE /\
  state before = GAME_PLAYING /\ currentPlayer before = 1 /\
  Player.type (fst (players after)) = PLAYER_NONE /\
  Player.type (snd (players after)) = PLAYER_NONE /\
  assignedTypes after = false.
Proof.
  cbv zeta. rewrite run_twoShots, run_app, run_app, run_breakShot. cbn [run].
  rewrite frame_scratch, run_placeAndShoot, frame_stripeDown.
  split; [reflexivity|]. split; [rewrite <- frame_stripeDown; constructor;
                                  apply reachable_pocketApproach|].
  split; [repeat constructor|]. vm_compute. repeat split; reflexivity.
Qed.

(** *** The first group ball in previous.c *)

(** The assignment of previous.c, with ball 1 in a pocket before any group
    is assigned: made when the scan is entered with the break-shot flag set,
    not made when it is entered with the flag cleared, as it is after every
    shot. *)
Lemma previous_assigns_only_on_first_shot :
  Previous.typesOf (Previous.chkPockets (prevSolidTable true))
    = (Previous.SOL, Previous.STR, true) /\
  Previous.Player.remain
    (fst (Previous.players (Previous.chkPockets (prevSolidTable true)))) = 6 /\
  Previous.typesOf (Previous.chkPockets (prevSolidTable false))
    = (Previous.NONE, Previous.NONE, false).
Proof. vm_compute. repeat split; reflexivity. Qed.

(** Witness of C4, on the table after the scratch. *)
Lemma updated_never_assigns_witness :
  reachable scratchTable /\
  Player.type (fst (players scratchTable)) = PLAYER_NONE /\
  Player.ballsRemaining (snd (players scratchTable)) = 7 /\
  state scratchTable <> GAME_WON.
Proof.
  split; [apply reachable_scratchTable|].
  destruct (UpdatedProofs.updated_never_assigns scratchTable reachable_scratchTable)
    as (_ & _ & Ht0 & _ & _ & Hr1 & Hst & _).
  split; [exact Ht0|]. split; [exact Hr1|exact Hst].
Defined.

(** Witness of C9: previous.c after the break, ball 1 in a pocket. *)
Lemma chkPockets_no_assignment_after_break_witness :
  Previous.firstShot (prevSolidTable false) = false /\
  Previous.Ball.pocketed <$>
    Previous.tblBalls (Previous.chkPockets (prevSolidTable false)) !! 1%nat = Some true /\
  Previous.Player.type (fst (Previous.players (Previous.chkPockets (prevSolidTable false))))
    = Previous.Player.type (fst (Previous.players (prevSolidTable false))) /\
  Previous.assignedType (Previous.chkPockets (prevSolidTable false))
    = Previous.assignedType (prevSolidTable false).
Proof.
  split; [reflexivity|]. split; [vm_compute; reflexivity|].
  destruct (PreviousProofs.chkPockets_no_assignment_after_break
              (prevSolidTable false) eq_refl) as (Ht0 & _ & Ha & _).
  split; [exact Ht0|exact Ha].
Defined.

(** *** Placing the cue ball in a pocket *)

(** C10. The point (400,56) is accepted by the placement handler and is
    within [POCKET_RADIUS] of the upper middle pocket. Clicking there in
    [GAME_SCRATCH] puts the cue ball down and the game in [GAME_PLAYING];
    the next pocket scan takes the cue ball again and, unless an 8-ball goes
    down with it, the game is back in [GAME_SCRATCH] with the turn passed
    on. On the table reached by the break above the whole frame does so: no
    shot is taken, the cue ball is pocketed where it was put and the turn
    returns to player 0. *)
Theorem placement_inside_pocket_rescratches :
  exists m : Vector2 binary32,
    validPlacement m = true /\
    (exists pk, In pk pockets /\ (Distance m pk <? fint POCKET_RADIUS)%fl = true) /\
    (forall (g : Game binary32) b0 (inp : Input binary32),
       state g = GAME_SCRATCH -> balls g !! 0%nat = Some b0 ->
       keyR inp = false -> mousePressed inp = true -> mousePos inp = m ->
       let g1 := HandleInput inp g in
       state g1 = GAME_PLAYING /\ cueSinks g1 = true /\
       (eightIndex g1 = None ->
        state (CheckPockets g1) = GAME_SCRATCH /\
        currentPlayer (CheckPockets g1) = 1 - currentPlayer g /\
        Ball.pocketed <$> balls (CheckPockets g1) !! 0%nat = Some true)) /\
    reachable scratchTable /\ state scratchTable = GAME_SCRATCH /\
    currentPlayer scratchTable = 1 /\
    let inp := mkInput false m true true false in
    let g2 := UpdateGame inp scratchTable in
    state (HandleInput inp scratchTable) = GAME_PLAYING /\
    state g2 = GAME_SCRATCH /\ currentPlayer g2 = 0 /\
    (Ball.pocketed <$> balls g2 !! 0%nat = Some true) /\
    (Ball.position <$> balls g2 !! 0%nat = Some m) /\
    firstShot g2 = firstShot scratchTable /\ aiming g2 = false.
Proof.
  exists (pt 400 56).
  assert (Hin : inPocket (pt 400 56) = true) by (vm_compute; reflexivity).
  split; [vm_compute; reflexivity|].
  split.
  { exists (mkVector2 (fint TABLE_WIDTH * flit 5 10)%fl (fint RAIL_WIDTH)).
    split; [right; left; reflexivity|vm_compute; reflexivity]. }
  split.
  { intros g b0 inp Hs Hb0 HR Hp Hm g1. unfold g1.
    rewrite UpdatedProofs.HandleInput_placement; [|done|done|done|].
    2:{ rewrite Hm. vm_compute. reflexivity. }
    rewrite Hm.
    destruct (UpdatedProofs.placeCueBall_in_pocket g (pt 400 56) b0 Hb0 Hin)
      as (H1 & _ & _ & H2 & H3).
    split; [exact H1|]. split; [exact H2|exact H3]. }
  split; [apply reachable_scratchTable|].
  vm_compute. repeat split; reflexivity.
Qed.

(** *** Rounding *)


End Scenarios.

(** ** The count of remaining balls (C3) *)

Module RemainingProofs.

Section Counts.
Context {F : Type} `{Scalar F}.

(** The owner [playerIdxForType] finds is player 0, player 1 or nobody. *)
Lemma playerIdxForType_range (g : Previous.Game F) t :
  let o := Previous.playerIdxForType g t in o = -1 \/ o = 0 \/ o = 1.
Proof. unfold Previous.playerIdxForType. repeat case_match; auto. Qed.

Lemma assignTypes_remain (g : Previous.Game F) t :
  Previous.Player.remain (fst (Previous.players (Previous.assignTypes g t)))
    = Previous.Player.remain (fst (Previous.players g)) /\
  Previous.Player.remain (snd (Previous.players (Previous.assignTypes g t)))
    = Previous.Player.remain (snd (Previous.players g)).
Proof.
  unfold Previous.assignTypes. destruct (_ && _); [|done].
  unfold Previous.set_player_at, Previous.player_at.
  by repeat case_match; simplify_eq; cbn.
Qed.

(** The count-down itself: the owner's counter goes down by one unless it
    is at 0 already, the other counter and both types stay. *)
Lemma countDown_spec (g : Previous.Game F) t :
  let o := Previous.playerIdxForType g t in
  let dec r := if (r >? 0)%Z then r - 1 else r in
  let r0 := Previous.Player.remain (fst (Previous.players g)) in
  let r1 := Previous.Player.remain (snd (Previous.players g)) in
  let g' := Previous.countDown g t in
  Previous.playerIdxForType g' t = o /\
  Previous.Player.remain (fst (Previous.players g')) = (if o =? 0 then dec r0 else r0) /\
  Previous.Player.remain (snd (Previous.players g')) = (if o =? 1 then dec r1 else r1).
Proof.
  cbv zeta. unfold Previous.countDown.
  destruct (playerIdxForType_range g t) as [E|[E|E]]; rewrite E; cbn [Z.geb Z.compare andb Z.eqb];
    [done| |].
  - unfold Previous.player_at, Previous.set_player_at. cbn [Z.eqb].
    destruct (_ >? 0)%Z eqn:E'; [|by rewrite E]. split; [|done].
    unfold Previous.playerIdxForType in *. cbn. done.
  - unfold Previous.player_at, Previous.set_player_at. cbn [Z.eqb].
    destruct (_ >? 0)%Z eqn:E'; [|by rewrite E]. split; [|done].
    unfold Previous.playerIdxForType in *. cbn. done.
Qed.

Lemma handleInput_players (inp : Previous.Input F) (g : Previous.Game F) :
  Previous.players (Previous.handleInput inp g)
    = if Previous.keyR inp then Previous.players (Previous.initGame (F:=F))
      else Previous.players g.
Proof.
  unfold Previous.handleInput, Previous.placeCueBall, Previous.releaseShot.
  by repeat case_match.
Qed.

Lemma remainNonneg_reachable (g : Previous.Game F) :
  Previous.reachable g -> Previous.remainNonneg g.
Proof.
  induction 1 as [|inp g _ IH|g _ IH|g _ IH|g _ IH|g _ IH].
  - split; cbn; lia.
  - unfold Previous.remainNonneg. rewrite handleInput_players.
    destruct (Previous.keyR inp); [split; cbn; lia|done].
  - unfold Previous.updPhysics. by apply PreviousProofs.chkPockets_nonneg.
  - unfold Previous.chkWin. by case_match.
  - done.
  - done.
Qed.

Lemma playerIndexForType_unassigned (g : Updated.Game F) t :
  Updated.unassigned (fst (Updated.players g)) ->
  Updated.unassigned (snd (Updated.players g)) ->
  Updated.playerIndexForType g t = -1.
Proof.
  intros [H0 _] [H1 _]. unfold Updated.playerIndexForType. rewrite H0, H1.
  by destruct t.
Qed.

(** C3. Both counters start at 7, in either version. In previous.c the
    iteration of the pocket scan that pockets a solid or a stripe (never the
    cue ball, never the 8-ball) takes exactly one off the counter of the
    player who has that group, unless it is at 0 already, and leaves the
    other counter alone; when nobody has the group both stay. No state that
    calls of previous.c's functions produce from [initGame] has a negative
    counter. In updated.c, in every state an execution reaches, both
    counters are 7 and both players are [PLAYER_NONE]: no ball is of a
    player's group ([playerIndexForType] finds no owner), so there is no
    pocketing to count. *)
Theorem ballsRemaining_counts_down
    (g : Previous.Game F) (i : nat) (b : Previous.Ball.t F) (c a : bool) :
  Previous.tblBalls g !! i = Some b ->
  Previous.sinks (Previous.tblBalls g) i = true ->
  i <> 0%nat ->
  Previous.Ball.type b = Previous.SOLID \/ Previous.Ball.type b = Previous.STRIPE ->
  (Previous.Player.remain (fst (Previous.players (Previous.initGame (F:=F)))) = 7 /\
   Previous.Player.remain (snd (Previous.players (Previous.initGame (F:=F)))) = 7 /\
   Updated.Player.ballsRemaining (fst (Updated.players (Updated.InitGame (F:=F)))) = 7 /\
   Updated.Player.ballsRemaining (snd (Updated.players (Updated.InitGame (F:=F)))) = 7) /\
  (exists g', Previous.chkPockets_body i g c a = Previous.Go g' c true /\
     Previous.Ball.pocketed <$> Previous.tblBalls g' !! i = Some true /\
     let o := Previous.playerIdxForType g' (Previous.Ball.type b) in
     let dec r := if (r >? 0)%Z then r - 1 else r in
     let r0 := Previous.Player.remain (fst (Previous.players g)) in
     let r1 := Previous.Player.remain (snd (Previous.players g)) in
     (o = -1 \/ o = 0 \/ o = 1) /\
     Previous.Player.remain (fst (Previous.players g')) = (if o =? 0 then dec r0 else r0) /\
     Previous.Player.remain (snd (Previous.players g')) = (if o =? 1 then dec r1 else r1)) /\
  (forall g0 : Previous.Game F, Previous.reachable g0 ->
     0 <= Previous.Player.remain (fst (Previous.players g0)) /\
     0 <= Previous.Player.remain (snd (Previous.players g0))) /\
  (forall g0 : Updated.Game F, Updated.reachable g0 ->
     Updated.Player.ballsRemaining (fst (Updated.players g0)) = 7 /\
     Updated.Player.ballsRemaining (snd (Updated.players g0)) = 7 /\
     Updated.Player.type (fst (Updated.players g0)) = Updated.PLAYER_NONE /\
     Updated.Player.type (snd (Updated.players g0)) = Updated.PLAYER_NONE /\
     (forall t, Updated.playerIndexForType g0 t = -1)).
Proof.
  intros Hb Hs Hi Ht. split; [done|]. split; [|split].
  - unfold Previous.chkPockets_body. rewrite Hb.
    unfold Previous.sinks in Hs. rewrite Hb in Hs.
    apply andb_prop in Hs as [Hp Hin]. apply negb_true_iff in Hp.
    rewrite Hp, Hin.
    destruct (i =? 0)%nat eqn:Ei; [apply Nat.eqb_eq in Ei; done|].
    rewrite bool_decide_eq_false_2 by (destruct Ht as [-> | ->]; done).
    set (g1 := Previous.set_tblBalls g _).
    set (g2 := Previous.assignTypes g1 (Previous.Ball.type b)).
    eexists. split; [reflexivity|].
    destruct (PreviousProofs.countDown_frame g2 (Previous.Ball.type b)) as [_ Hballs].
    destruct (PreviousProofs.assignTypes_frame g1 (Previous.Ball.type b)) as [_ Hballs1].
    split.
    { rewrite Hballs. fold g2 in Hballs1. rewrite Hballs1. subst g1.
      cbn [Previous.tblBalls Previous.set_tblBalls].
      rewrite list_lookup_insert_eq by (by eapply lookup_lt_Some). done. }
    destruct (countDown_spec g2 (Previous.Ball.type b)) as (Ho & H0 & H1).
    cbv zeta in *. rewrite Ho.
    destruct (assignTypes_remain g1 (Previous.Ball.type b)) as [A0 A1].
    fold g2 in A0, A1. rewrite A0 in H0. rewrite A1 in H1.
    split; [apply playerIdxForType_range|]. by split.
  - intros g0 Hr. by apply remainNonneg_reachable.
  - intros g0 Hr. destruct (UpdatedProofs.reachable_rulesInv g0 Hr) as ([T0 R0] & [T1 R1] & _).
    repeat split; try done.
    intros t. by apply playerIndexForType_unassigned.
Qed.

End Counts.
End RemainingProofs.

(** ** The speed limit and the exchange of normal parts, in any arithmetic *)

Module ClampProofs.
Import Updated.

Section AnyArithmetic.
Context {F : Type} `{Scalar F}.
Implicit Type g : Game F.
Implicit Type b : Ball.t F.

Lemma ClampBallSpeed_clampVelocity b m :
  Ball.velocity (ClampBallSpeed b m) = clampVelocity (Ball.velocity b) m /\
  Ball.pocketed (ClampBallSpeed b m) = Ball.pocketed b.
Proof. unfold ClampBallSpeed, clampVelocity. by case_match. Qed.

Lemma speedClamped_ClampBallSpeed b : speedClamped (ClampBallSpeed b MAX_BALL_SPEED).
Proof. exists (Ball.velocity b). apply ClampBallSpeed_clampVelocity. Qed.

Lemma moveBall_clamped b :
  Ball.pocketed (moveBall b) = false -> speedClamped (moveBall b).
Proof.
  unfold moveBall. destruct (Ball.pocketed b) eqn:Hp; [by rewrite Hp|].
  intros _. repeat case_match; apply speedClamped_ClampBallSpeed.
Qed.

Lemma moveBalls_clamped g :
  Forall (fun b => Ball.pocketed b = false -> speedClamped b) (balls (moveBalls g)).
Proof.
  unfold moveBalls. cbn [balls set_balls]. apply Forall_fmap, Forall_forall.
  intros b _. exact (moveBall_clamped b).
Qed.

Lemma collidePair_clamped i j (bs : list (Ball.t F)) :
  Forall (fun b => Ball.pocketed b = false -> speedClamped b) bs ->
  Forall (fun b => Ball.pocketed b = false -> speedClamped b) (collidePair i j bs).
Proof.
  intros Hbs. unfold collidePair.
  destruct (bs !! i) as [bi|]; [|done].
  destruct (bs !! j) as [bj|]; [|done].
  destruct (Ball.pocketed bj); [done|].
  destruct (_ && _); [|done].
  destruct (ResolveElasticCollision _ _) as [bi2 bj2].
  apply Forall_insert; [apply Forall_insert; [done|]|];
    intros _; apply speedClamped_ClampBallSpeed.
Qed.

Lemma collideRow_clamped (bs : list (Ball.t F)) i :
  Forall (fun b => Ball.pocketed b = false -> speedClamped b) bs ->
  Forall (fun b => Ball.pocketed b = false -> speedClamped b) (collideRow bs i).
Proof.
  intros Hbs. unfold collideRow.
  destruct (bs !! i) as [bi|]; [|done].
  destruct (Ball.pocketed bi); [done|].
  generalize dependent bs. generalize (seq (S i) (MAX_BALLS - S i)) as js.
  induction js as [|j js IH]; intros bs Hbs; [done|].
  cbn [fold_left]. apply IH. by apply collidePair_clamped.
Qed.

Lemma CheckCollisions_clamped g :
  Forall (fun b => Ball.pocketed b = false -> speedClamped b) (balls g) ->
  Forall (fun b => Ball.pocketed b = false -> speedClamped b) (balls (CheckCollisions g)).
Proof.
  unfold CheckCollisions. cbn [balls set_balls].
  generalize (balls g) as bs. generalize (seq 0 MAX_BALLS) as idxs.
  induction idxs as [|i idxs IH]; intros bs Hbs; [done|].
  cbn [fold_left]. apply IH. by apply collideRow_clamped.
Qed.

Lemma resolveElastic_recomposes (a b : Previous.Ball.t F) :
  let n := collisionNormal (Previous.Ball.pos a) (Previous.Ball.pos b) in
  let t := collisionTangent (Previous.Ball.pos a) (Previous.Ball.pos b) in
  (Distance (Previous.Ball.pos b) (Previous.Ball.pos a) <=? flit 1 10000)%fl = false ->
  Previous.resolveElastic a b =
    (Previous.Ball.set_vel a
       (recompose n t (along (Previous.Ball.vel b) n) (along (Previous.Ball.vel a) t)),
     Previous.Ball.set_vel b
       (recompose n t (along (Previous.Ball.vel a) n) (along (Previous.Ball.vel b) t))).
Proof.
  intros n t Hd. unfold Previous.resolveElastic. unfold Distance in Hd.
  cbv zeta. by rewrite Hd.
Qed.

End AnyArithmetic.

(** Addition of two binary32 numbers does not depend on their order. *)
Lemma SFadd_comm (u v : binary32) : SFadd 24 128 u v = SFadd 24 128 v u.
Proof.
  destruct u as [su|su| |su mu eu], v as [sv|sv| |sv mv ev]; cbn; try reflexivity.
  - by destruct su, sv.
  - by destruct su, sv.
  - by rewrite Z.min_comm, Z.add_comm.
Qed.




End ClampProofs.

(** ** The three statements above on tables *)

Module TableWitnesses.
Import Tables.

(** Ball 1, a solid, in a pocket of previous.c's table with player 1 on
    solids: the iteration pockets it and takes player 1 from 7 to 6; so does
    the whole scan. *)
Lemma ballsRemaining_counts_down_witness :
  Previous.sinks (Previous.tblBalls prevAssignedTable) 1 = true /\
  (exists g',
     Previous.chkPockets_body 1 prevAssignedTable false false = Previous.Go g' false true /\
     Previous.Ball.pocketed <$> Previous.tblBalls g' !! 1%nat = Some true /\
     Previous.playerIdxForType g' Previous.SOLID = 0 /\
     Previous.Player.remain (fst (Previous.players g')) = 6 /\
     Previous.Player.remain (snd (Previous.players g')) = 7) /\
  Previous.Player.remain (fst (Previous.players prevAssignedTable)) = 7 /\
  Previous.Player.remain (fst (Previous.players (Previous.chkPockets prevAssignedTable))) = 6 /\
  Previous.Player.remain (snd (Previous.players (Previous.chkPockets prevAssignedTable))) = 7.
Proof.
  split; [vm_compute; reflexivity|]. split; [|vm_compute; repeat split; reflexivity].
  evar (b : Previous.Ball.t binary32).
  assert (Hb : Previous.tblBalls prevAssignedTable !! 1%nat = Some b)
    by (subst b; vm_compute; reflexivity).
  destruct (RemainingProofs.ballsRemaining_counts_down
              prevAssignedTable 1 b false false Hb)
    as (_ & (g' & Hgo & Hp & Hrest) & _);
    [vm_compute; reflexivity|discriminate|left; reflexivity|].
  exists g'. split; [exact Hgo|]. split; [exact Hp|].
  cbv zeta in Hrest. destruct Hrest as (_ & H0 & H1).
  assert (Ho : Previous.playerIdxForType g' Previous.SOLID = 0).
  { vm_compute in Hgo. injection Hgo as <-. reflexivity. }
  change (Previous.Ball.type b) with Previous.SOLID in H0, H1.
  rewrite Ho in H0, H1.
  split; [exact Ho|]. split; [exact H0|exact H1].
Defined.



End TableWitnesses.
(** ** What the frame keeps of the table (updated.c) *)

Module UpdatedExtra.
Import Updated UpdatedProofs.

Section Frame.
Context {F : Type} `{Scalar F}.
Implicit Type g : Game F.
Implicit Type b : Ball.t F.

Lemma kept_refl b : kept b b.
Proof. by split. Qed.

Lemma kept_trans b1 b2 b3 : kept b1 b2 -> kept b2 b3 -> kept b1 b3.
Proof.
  intros [Hi1 Hp1] [Hi2 Hp2]. split; [congruence|].
  intros Hp. specialize (Hp1 Hp). subst b2. auto.
Qed.

Lemma moved_refl b : moved b b.
Proof. split; [apply kept_refl|done]. Qed.

Lemma moved_trans b1 b2 b3 : moved b1 b2 -> moved b2 b3 -> moved b1 b3.
Proof.
  intros [Hk1 Hp1] [Hk2 Hp2]. split; [by eapply kept_trans|congruence].
Qed.

Lemma moved_kept b b' : moved b b' -> kept b b'.
Proof. by intros [? _]. Qed.

(** A ball on the table may be changed in position and velocity. *)
Lemma moved_on_table b b' :
  Ball.pocketed b = false -> identity b' = identity b ->
  Ball.pocketed b' = false -> moved b b'.
Proof. intros Hp Hi Hp'. repeat split; [done|congruence|congruence]. Qed.

Lemma Forall2_refl_on {A} (R : A -> A -> Prop) (l : list A) :
  (forall a, R a a) -> Forall2 R l l.
Proof. intros HR. induction l; by constructor. Qed.

Lemma Forall2_trans_on {A} (R : A -> A -> Prop) (l1 l2 l3 : list A) :
  (forall a1 a2 a3, R a1 a2 -> R a2 a3 -> R a1 a3) ->
  Forall2 R l1 l2 -> Forall2 R l2 l3 -> Forall2 R l1 l3.
Proof.
  intros HR H12. revert l3.
  induction H12; intros l3 H23; inversion H23; subst; constructor; eauto.
Qed.

(** Overwriting [l' !! i] by a value related to [l !! i]. *)
Lemma Forall2_insert_right {A} (R : A -> A -> Prop) (l l' : list A) i a a' :
  Forall2 R l l' -> l !! i = Some a -> R a a' -> Forall2 R l (<[i := a']> l').
Proof.
  intros HF Hl HR. rewrite <- (list_insert_id l i a) by done.
  by apply Forall2_insert.
Qed.

Lemma ClampBallSpeed_identity b m :
  identity (ClampBallSpeed b m) = identity b /\
  Ball.pocketed (ClampBallSpeed b m) = Ball.pocketed b /\
  Ball.position (ClampBallSpeed b m) = Ball.position b.
Proof. unfold ClampBallSpeed. by case_match. Qed.

Lemma ResolveElasticCollision_identity (a b : Ball.t F) :
  let r := ResolveElasticCollision a b in
  identity (fst r) = identity a /\ Ball.pocketed (fst r) = Ball.pocketed a /\
  Ball.position (fst r) = Ball.position a /\
  identity (snd r) = identity b /\ Ball.pocketed (snd r) = Ball.pocketed b /\
  Ball.position (snd r) = Ball.position b.
Proof. unfold ResolveElasticCollision. cbv zeta. by case_match. Qed.

Lemma moveBall_moved b : moved b (moveBall b).
Proof.
  destruct (Ball.pocketed b) eqn:Hp.
  - unfold moveBall. rewrite Hp. apply moved_refl.
  - apply moved_on_table; [done| |].
    + unfold moveBall. rewrite Hp.
      repeat case_match; by rewrite (proj1 (ClampBallSpeed_identity _ _)).
    + unfold moveBall. rewrite Hp.
      repeat case_match; by rewrite (proj1 (proj2 (ClampBallSpeed_identity _ _))).
Qed.

Lemma moveBalls_moved g : Forall2 moved (balls g) (balls (moveBalls g)).
Proof.
  unfold moveBalls. cbn [balls set_balls].
  induction (balls g); constructor; [apply moveBall_moved|done].
Qed.

Lemma collidePair_moved i j (bs : list (Ball.t F)) :
  i <> j ->
  (forall bi, bs !! i = Some bi -> Ball.pocketed bi = false) ->
  Forall2 moved bs (collidePair i j bs).
Proof.
  intros Hne Hi. pose proof (Forall2_refl_on moved bs moved_refl) as Hrefl.
  unfold collidePair.
  destruct (bs !! i) as [bi|] eqn:Ei; [|done].
  destruct (bs !! j) as [bj|] eqn:Ej; [|done].
  destruct (Ball.pocketed bj) eqn:Hpj; [done|].
  destruct (_ && _); [|done].
  match goal with |- context [ResolveElasticCollision ?a ?b] =>
    pose proof (ResolveElasticCollision_identity a b) as HR;
    destruct (ResolveElasticCollision a b) as [bi2 bj2] end.
  cbn in HR. destruct HR as (Hi1 & Hp1 & _ & Hi2 & Hp2 & _).
  apply (Forall2_insert_right _ _ _ _ bj); [|done|].
  - apply (Forall2_insert_right _ _ _ _ bi); [done|done|].
    apply moved_on_table; [by apply Hi| |].
    + rewrite (proj1 (ClampBallSpeed_identity _ _)). by rewrite Hi1.
    + rewrite (proj1 (proj2 (ClampBallSpeed_identity _ _))). rewrite Hp1. cbn. by apply Hi.
  - apply moved_on_table; [done| |].
    + rewrite (proj1 (ClampBallSpeed_identity _ _)). by rewrite Hi2.
    + rewrite (proj1 (proj2 (ClampBallSpeed_identity _ _))). by rewrite Hp2.
Qed.

Lemma collideRow_moved (bs : list (Ball.t F)) i :
  Forall2 moved bs (collideRow bs i).
Proof.
  unfold collideRow.
  destruct (bs !! i) as [bi|] eqn:Ei; [|apply Forall2_refl_on, moved_refl].
  destruct (Ball.pocketed bi) eqn:Hp; [apply Forall2_refl_on, moved_refl|].
  assert (Hgen : forall js acc,
    Forall (fun j => i <> j) js -> Forall2 moved bs acc ->
    Forall2 moved bs (fold_left (fun acc j => collidePair i j acc) js acc)).
  { induction js as [|j js IH]; intros acc Hjs Hacc; [done|].
    cbn. inversion Hjs; subst. apply IH; [done|].
    eapply Forall2_trans_on; [apply moved_trans|exact Hacc|].
    apply collidePair_moved; [done|].
    intros bi' Hbi'.
    destruct (Forall2_lookup_l _ _ _ _ _ Hacc Ei) as (b' & Hb' & [_ Hpb]).
    rewrite Hbi' in Hb'. simplify_eq. congruence. }
  apply Hgen; [|apply Forall2_refl_on, moved_refl].
  apply Forall_forall. intros j Hj. apply elem_of_seq in Hj. lia.
Qed.

Lemma CheckCollisions_moved g : Forall2 moved (balls g) (balls (CheckCollisions g)).
Proof.
  unfold CheckCollisions. cbn [balls set_balls]. generalize (seq 0 MAX_BALLS) as idxs.
  assert (Hgen : forall idxs acc,
    Forall2 moved (balls g) acc ->
    Forall2 moved (balls g) (fold_left collideRow idxs acc)).
  { induction idxs as [|i idxs IH]; intros acc Hacc; [done|].
    cbn. apply IH. eapply Forall2_trans_on; [apply moved_trans|exact Hacc|].
    apply collideRow_moved. }
  intros idxs. apply Hgen, Forall2_refl_on, moved_refl.
Qed.

(** The pocket scan changes a ball only by pocketing it. *)
Lemma scanned_kept (bs : list (Ball.t F)) lo hi j :
  option_Forall2 kept (bs !! j) (scanned bs lo hi j).
Proof.
  unfold scanned.
  destruct (_ && _ && sinks bs j) eqn:E.
  - apply andb_prop in E as [_ Hs]. unfold sinks in Hs.
    destruct (bs !! j) as [b|]; [|constructor]. cbn. constructor.
    apply andb_prop in Hs as [Hp _]. split; [done|].
    intros Hp'. by rewrite Hp' in Hp.
  - destruct (bs !! j); constructor. apply kept_refl.
Qed.

Lemma CheckPockets_kept g : Forall2 kept (balls g) (balls (CheckPockets g)).
Proof.
  apply Forall2_lookup. intros j.
  destruct (eightIndex g) as [k|] eqn:E.
  - destruct (CheckPockets_eight g k E) as (_ & _ & Hb). rewrite Hb. apply scanned_kept.
  - destruct (CheckPockets_no_eight g E) as (_ & _ & _ & _ & Hb & _). rewrite Hb.
    apply scanned_kept.
Qed.

Lemma UpdatePhysics_kept g : Forall2 kept (balls g) (balls (UpdatePhysics g)).
Proof.
  unfold UpdatePhysics.
  eapply Forall2_trans_on; [apply kept_trans| |apply CheckPockets_kept].
  eapply Forall2_trans_on; [apply kept_trans| |].
  - eapply Forall2_impl; [apply moveBalls_moved|apply moved_kept].
  - eapply Forall2_impl; [apply CheckCollisions_moved|apply moved_kept].
Qed.

Lemma recoilStep_balls g : balls (recoilStep g) = balls g.
Proof. unfold recoilStep. by repeat case_match. Qed.

Lemma settle_balls g : balls (settle g) = balls g.
Proof. unfold settle, CheckWinCondition, NextTurn. by repeat case_match. Qed.

(** The three things [HandleInput] can do to the table without a reset:
    nothing, put the cue ball down, or shoot it. *)
Lemma HandleInput_cases (inp : Input F) g :
  keyR inp = false ->
  (balls (HandleInput inp g) = balls g /\ state (HandleInput inp g) = state g) \/
  (state g = GAME_SCRATCH /\ mousePressed inp = true /\
   validPlacement (mousePos inp) = true /\
   HandleInput inp g = placeCueBall g (mousePos inp)) \/
  (state g <> GAME_SCRATCH /\ ballsMoving g = false /\ mouseReleased inp = true /\
   state (HandleInput inp g) = GAME_PLAYING /\
   exists v, balls (HandleInput inp g) =
     match balls g !! 0%nat with
     | Some b0 => <[0%nat := Ball.set_velocity b0 v]> (balls g)
     | None => balls g
     end).
Proof.
  intros HR. unfold HandleInput. rewrite HR.
  destruct (bool_decide (state g = GAME_SCRATCH)) eqn:Es.
  { apply bool_decide_eq_true in Es.
    destruct (mousePressed inp) eqn:Ep; [|by left].
    destruct (validPlacement (mousePos inp)) eqn:Ev; [|by left].
    right; left. split; [exact Es|]. split; [reflexivity|]. split; reflexivity. }
  apply bool_decide_eq_false in Es.
  destruct (ballsMoving g) eqn:Em; [by left|].
  set (cue := match balls g !! 0%nat with
              | Some b0 => if Ball.pocketed b0 then cueBallPos g else Ball.position b0
              | None => cueBallPos g end).
  set (g1 := if mousePressed inp && _ then _ else g).
  assert (H1 : balls g1 = balls g /\ state g1 = state g).
  { subst g1. by destruct (_ && _). }
  clearbody g1.
  set (g2 := if mouseDown inp && aiming g1 then _ else g1).
  assert (H2 : balls g2 = balls g /\ state g2 = state g).
  { destruct H1 as [Hb1 Hs1]. subst g2.
    by destruct (mouseDown inp && aiming g1). }
  clearbody g2. clear H1.
  destruct (aiming g2 && mouseReleased inp) eqn:Er; [|by left].
  apply andb_prop in Er as [_ Er].
  unfold releaseShot.
  destruct (_ <? flit 1 1000)%fl; [by left|].
  right; right. repeat split; [done|done|].
  eexists. cbn. destruct H2 as [-> _]. reflexivity.
Qed.

Lemma placeCueBall_balls g (m : Vector2 F) :
  balls (placeCueBall g m) =
    match balls g !! 0%nat with
    | Some b0 =>
        <[0%nat := Ball.set_velocity
                     (Ball.set_pocketed (Ball.set_position b0 m) false) zeroV]> (balls g)
    | None => balls g
    end.
Proof. reflexivity. Qed.

(** [HandleInput] writes ball 0 only, and none of its identity fields. *)
Lemma HandleInput_balls (inp : Input F) g :
  keyR inp = false ->
  Forall2 (fun b b' => identity b' = identity b) (balls g) (balls (HandleInput inp g)) /\
  (forall i, i <> 0%nat -> balls (HandleInput inp g) !! i = balls g !! i).
Proof.
  intros HR.
  assert (Hrefl : Forall2 (fun b b' : Ball.t F => identity b' = identity b)
                          (balls g) (balls g)) by by apply Forall2_refl_on.
  destruct (HandleInput_cases inp g HR) as [[-> _]|[(_ & _ & _ & ->)|(_ & _ & _ & _ & v & ->)]].
  - done.
  - rewrite placeCueBall_balls. destruct (balls g !! 0%nat) as [b0|] eqn:E0; [|done].
    split; [by eapply Forall2_insert_right|].
    intros i Hi. by rewrite list_lookup_insert_ne.
  - destruct (balls g !! 0%nat) as [b0|] eqn:E0; [|done].
    split; [by eapply Forall2_insert_right|].
    intros i Hi. by rewrite list_lookup_insert_ne.
Qed.

Lemma kept_identity b b' : kept b b' -> identity b' = identity b.
Proof. by intros [? _]. Qed.

(** A whole frame without a reset. *)
Lemma UpdateGame_identity (inp : Input F) g :
  keyR inp = false ->
  Forall2 (fun b b' => identity b' = identity b) (balls g) (balls (UpdateGame inp g)).
Proof.
  intros HR. unfold UpdateGame.
  destruct (HandleInput_balls inp g HR) as [Hh _].
  destruct (_ || _).
  - rewrite settle_balls.
    eapply Forall2_trans_on; [| |eapply Forall2_impl;
      [apply UpdatePhysics_kept|apply kept_identity]].
    { intros; congruence. }
    by rewrite recoilStep_balls.
  - by rewrite recoilStep_balls.
Qed.

Lemma Forall2_identity_map (bs bs' : list (Ball.t F)) :
  Forall2 (fun b b' => identity b' = identity b) bs bs' ->
  map identity bs' = map identity bs.
Proof. induction 1; cbn; congruence. Qed.

Lemma UpdateGame_reset (inp : Input F) g :
  keyR inp = true -> UpdateGame inp g = InitGame.
Proof.
  intros HR. unfold UpdateGame. by rewrite HandleInput_reset.
Qed.

Lemma reachable_identity g :
  reachable g -> map identity (balls g) = map identity (ResetBalls (F:=F)).
Proof.
  induction 1 as [|inp g _ IH]; [done|].
  destruct (keyR inp) eqn:HR.
  - by rewrite UpdateGame_reset.
  - rewrite <- IH. apply Forall2_identity_map. by apply UpdateGame_identity.
Qed.

(** X1. [UpdatePhysics] keeps the length of the array and the number, type,
    colour and stripe flag of every ball, and it leaves a pocketed ball
    exactly as it was, position and velocity included: the motion pass and
    the collision pass skip it and the pocket scan does not take it
    again. *)
Theorem UpdatePhysics_leaves_pocketed_balls g :
  length (balls (UpdatePhysics g)) = length (balls g) /\
  forall i b, balls g !! i = Some b ->
    exists b', balls (UpdatePhysics g) !! i = Some b' /\
      Ball.number b' = Ball.number b /\ Ball.type b' = Ball.type b /\
      Ball.color b' = Ball.color b /\ Ball.isStriped b' = Ball.isStriped b /\
      (Ball.pocketed b = true -> b' = b).
Proof.
  pose proof (UpdatePhysics_kept g) as Hk. split.
  - symmetry. by eapply Forall2_length.
  - intros i b Hb.
    destruct (Forall2_lookup_l _ _ _ _ _ Hk Hb) as (b' & Hb' & [Hi Hp]).
    exists b'. unfold identity in Hi. by simplify_eq.
Qed.

(** X2. An object ball that is pocketed stays pocketed, and unchanged,
    through every frame without a reset, whatever the input: [HandleInput]
    writes ball 0 only and the physics leaves pocketed balls alone. *)
Theorem pocketed_object_ball_stays (inp : Input F) g i b :
  keyR inp = false -> i <> 0%nat ->
  balls g !! i = Some b -> Ball.pocketed b = true ->
  balls (UpdateGame inp g) !! i = Some b.
Proof.
  intros HR Hi Hb Hp. unfold UpdateGame.
  destruct (HandleInput_balls inp g HR) as [_ Hh].
  assert (H1 : balls (recoilStep (HandleInput inp g)) !! i = Some b).
  { rewrite recoilStep_balls, Hh; done. }
  destruct (_ || _); [|done].
  rewrite settle_balls.
  destruct (Forall2_lookup_l _ _ _ _ _ (UpdatePhysics_kept _) H1) as (b' & Hb' & [_ Hs]).
  by rewrite Hb', (Hs Hp).
Qed.

(** X3. In every state of an execution the array holds sixteen balls with
    the identities the rack gave them: ball [i] has number [i], ball 0 is
    the one cue ball, balls 1 to 7 are the solids, ball 8 is the one 8-ball,
    balls 9 to 15 are the stripes, and [isStriped] is set exactly on the
    stripes. *)
Theorem rack_identities_invariant g (Hr : reachable g) :
  length (balls g) = MAX_BALLS /\
  map identity (balls g) = map identity (ResetBalls (F:=F)) /\
  forall i b, balls g !! i = Some b ->
    Ball.number b = Z.of_nat i /\
    (Ball.type b = BALL_CUE <-> i = 0%nat) /\
    (Ball.type b = BALL_SOLID <-> (1 <= i <= 7)%nat) /\
    (Ball.type b = BALL_EIGHT <-> i = 8%nat) /\
    (Ball.type b = BALL_STRIPE <-> (9 <= i <= 15)%nat) /\
    (Ball.isStriped b = true <-> Ball.type b = BALL_STRIPE).
Proof.
  pose proof (reachable_identity g Hr) as Hm. split; [|split; [done|]].
  - rewrite <- (length_map identity), Hm, length_map. apply ResetBalls_length.
  - intros i b Hb.
    assert (Hi : identity <$> balls g !! i = map identity (ResetBalls (F:=F)) !! i).
    { by rewrite <- Hm, list_lookup_fmap. }
    rewrite Hb in Hi. cbn [fmap option_fmap option_map] in Hi.
    unfold identity in Hi at 1.
    set (rack := map identity (ResetBalls (F:=F))) in Hi.
    vm_compute in rack. subst rack.
    do 16 (destruct i as [|i];
      [injection Hi as Hn Ht _ Hs; rewrite Hn, Ht, Hs;
       repeat split; intros; try lia; try congruence|]).
    discriminate.
Qed.

Lemma AreBallsMoving_balls g g' :
  balls g' = balls g -> AreBallsMoving g' = AreBallsMoving g.
Proof. unfold AreBallsMoving. by intros ->. Qed.

Lemma settle_spec g :
  balls (settle g) = balls g /\ state (settle g) = state g /\
  ballsMoving (settle g) = AreBallsMoving g /\
  currentPlayer (settle g) =
    if ballsMoving g && negb (AreBallsMoving g) && bool_decide (state g = GAME_PLAYING)
    then 1 - currentPlayer g else currentPlayer g.
Proof.
  split; [apply settle_balls|]. split; [apply settle_state|].
  unfold settle.
  destruct (ballsMoving g) eqn:Em; destruct (AreBallsMoving g) eqn:Ea;
    cbn [negb andb].
  - rewrite Em, Ea. cbn [negb andb]. by rewrite Em.
  - rewrite Em, Ea. cbn [negb andb].
    change (state (set_ballsMoving g false)) with (state g).
    destruct (bool_decide (state g = GAME_PLAYING)) eqn:Es; [|split; reflexivity].
    apply bool_decide_eq_true in Es.
    unfold CheckWinCondition, NextTurn.
    destruct (groupCleared _);
      cbn [state set_statusMessage set_ballsMoving set_currentPlayer];
      rewrite Es; split; reflexivity.
  - change (AreBallsMoving (set_ballsMoving g true)) with (AreBallsMoving g).
    rewrite Ea. cbn [ballsMoving set_ballsMoving negb andb]. split; reflexivity.
  - rewrite Em. cbn [andb]. by rewrite Em.
Qed.

Lemma HandleInput_ballsMoving (inp : Input F) g :
  keyR inp = false -> ballsMoving (HandleInput inp g) = ballsMoving g.
Proof.
  intros HR. unfold HandleInput, placeCueBall, releaseShot. rewrite HR.
  by repeat case_match.
Qed.

Lemma recoilStep_ballsMoving g : ballsMoving (recoilStep g) = ballsMoving g.
Proof. unfold recoilStep. by repeat case_match. Qed.

Lemma CheckPockets_ballsMoving g : ballsMoving (CheckPockets g) = ballsMoving g.
Proof. apply CheckPockets_frame. Qed.

Lemma UpdateGame_ballsMoving (inp : Input F) g :
  keyR inp = false ->
  ballsMoving g = AreBallsMoving g ->
  ballsMoving (UpdateGame inp g) = AreBallsMoving (UpdateGame inp g).
Proof.
  intros HR IH. unfold UpdateGame.
  set (g1 := recoilStep (HandleInput inp g)).
  destruct (bool_decide (state g1 = GAME_PLAYING) || bool_decide (state g1 = GAME_SCRATCH))
    eqn:Ephys.
  - destruct (settle_spec (UpdatePhysics g1)) as (Hb & _ & Hm & _).
    by rewrite (AreBallsMoving_balls _ _ Hb).
  - subst g1. rewrite recoilStep_ballsMoving, HandleInput_ballsMoving, IH by done.
    symmetry. apply AreBallsMoving_balls. rewrite recoilStep_balls.
    apply orb_false_elim in Ephys as [E1 E2].
    apply bool_decide_eq_false in E1. rewrite recoilStep_state in E1.
    destruct (HandleInput_cases inp g HR) as [[Hb _]|[(_ & _ & _ & Hp)|(_ & _ & _ & Hs & _)]].
    + done.
    + rewrite Hp in E1. by destruct E1.
    + by destruct E1.
Qed.

(** X4. The end of a physics frame ([settle], the motion bookkeeping of
    [UpdateGame]): afterwards [ballsMoving] tells whether a ball on the
    table is moving; balls, state and players are as before; and the turn
    passes exactly when the flag was set, no ball moves any more and the
    state is [GAME_PLAYING], so [CheckWinCondition] never stops it. *)
Theorem settle_flag_and_turn g :
  ballsMoving (settle g) = AreBallsMoving (settle g) /\
  balls (settle g) = balls g /\ state (settle g) = state g /\
  players (settle g) = players g /\
  currentPlayer (settle g) =
    if ballsMoving g && negb (AreBallsMoving g) && bool_decide (state g = GAME_PLAYING)
    then 1 - currentPlayer g else currentPlayer g.
Proof.
  destruct (settle_spec g) as (Hb & Hs & Hm & Hc).
  rewrite (AreBallsMoving_balls g (settle g) Hb).
  split; [exact Hm|]. split; [exact Hb|]. split; [exact Hs|].
  split; [apply settle_players|exact Hc].
Qed.

(** X5. When the rack is at rest for the arithmetic ([AreBallsMoving] is
    false on [InitGame]), [ballsMoving] equals [AreBallsMoving] in every
    state of an execution, between frames. *)
Theorem ballsMoving_flag_faithful g :
  AreBallsMoving (InitGame (F:=F)) = false ->
  reachable g -> ballsMoving g = AreBallsMoving g.
Proof.
  intros Hrest. induction 1 as [|inp g _ IH]; [by rewrite Hrest|].
  destruct (keyR inp) eqn:HR.
  - rewrite UpdateGame_reset by done. by rewrite Hrest.
  - by apply UpdateGame_ballsMoving.
Qed.

(** X6. The turn within one frame without a reset. If the frame runs no
    physics the turn stays. If it does: when an 8-ball goes down the turn
    stays (also if the cue ball went down before it); otherwise when the cue
    ball goes down the turn passes, once; otherwise it passes exactly when
    the balls were moving before the frame, none is after it and the state
    is [GAME_PLAYING]. Pocketing a ball never keeps the turn and the turn
    never passes twice in a frame. *)
Theorem turn_passes_at_most_once (inp : Input F) g :
  keyR inp = false ->
  let g1 := recoilStep (HandleInput inp g) in
  let e := scanEntry inp g in
  currentPlayer (UpdateGame inp g) =
    if bool_decide (state g1 = GAME_PLAYING) || bool_decide (state g1 = GAME_SCRATCH)
    then
      match eightIndex e with
      | Some _ => currentPlayer g
      | None =>
          if cueSinks e then 1 - currentPlayer g
          else if ballsMoving g && negb (AreBallsMoving (UpdateGame inp g))
                  && bool_decide (state g1 = GAME_PLAYING)
               then 1 - currentPlayer g
               else currentPlayer g
      end
    else currentPlayer g.
Proof.
  intros HR g1 e.
  assert (Hc1 : currentPlayer g1 = currentPlayer g).
  { subst g1. rewrite recoilStep_currentPlayer, HandleInput_currentPlayer. by rewrite HR. }
  assert (Hm1 : ballsMoving g1 = ballsMoving g).
  { subst g1. by rewrite recoilStep_ballsMoving, HandleInput_ballsMoving. }
  assert (Hce : currentPlayer e = currentPlayer g1) by reflexivity.
  assert (Hme : ballsMoving e = ballsMoving g1) by reflexivity.
  assert (Hse : state e = state g1) by reflexivity.
  assert (HU : UpdateGame inp g =
               if bool_decide (state g1 = GAME_PLAYING) || bool_decide (state g1 = GAME_SCRATCH)
               then settle (CheckPockets e) else g1) by reflexivity.
  rewrite HU. clear HU.
  destruct (bool_decide (state g1 = GAME_PLAYING) || bool_decide (state g1 = GAME_SCRATCH));
    [|exact Hc1].
  destruct (settle_spec (CheckPockets e)) as (Hb & Hs & _ & Hcp).
  rewrite Hcp, (AreBallsMoving_balls _ _ Hb), CheckPockets_ballsMoving, Hme, Hm1.
  destruct (eightIndex e) as [k|] eqn:E8.
  - destruct (CheckPockets_eight e k E8) as (Hst & Hfr & _).
    destruct Hfr as (_ & Hcpe & _). rewrite Hcpe, Hce, Hc1.
    assert (Hn : bool_decide (state (CheckPockets e) = GAME_PLAYING) = false).
    { apply bool_decide_eq_false. rewrite Hst. unfold eightVerdict.
      destruct (groupCleared (player_at (players e) (currentPlayer e))); discriminate. }
    by rewrite Hn, andb_false_r.
  - destruct (CheckPockets_no_eight e E8) as (_ & Hcpe & Hst & _).
    rewrite Hcpe, Hst, Hce, Hc1, Hse.
    destruct (cueSinks e); [|reflexivity].
    rewrite bool_decide_eq_false_2 by discriminate. by rewrite andb_false_r.
Qed.

(** A pocketed ball goes through the motion and collision passes as it is. *)
Lemma scanEntry_pocketed (inp : Input F) g i b :
  balls (recoilStep (HandleInput inp g)) !! i = Some b -> Ball.pocketed b = true ->
  balls (scanEntry inp g) !! i = Some b.
Proof.
  intros H1 Hp. unfold scanEntry.
  destruct (Forall2_lookup_l _ _ _ _ _ (moveBalls_moved _) H1) as (b1 & Hb1 & [[_ Hk1] _]).
  rewrite (Hk1 Hp) in Hb1.
  destruct (Forall2_lookup_l _ _ _ _ _ (CheckCollisions_moved _) Hb1)
    as (b2 & Hb2 & [[_ Hk2] _]).
  by rewrite (Hk2 Hp) in Hb2.
Qed.


(** The scan leaves the state [GAME_SCRATCH] only with the cue ball
    pocketed, if it was so in a [GAME_SCRATCH] state before. *)
Lemma CheckPockets_scratch_cue g :
  (state g = GAME_SCRATCH -> cueOffTable g = true) ->
  state (CheckPockets g) = GAME_SCRATCH -> cueOffTable (CheckPockets g) = true.
Proof.
  intros IH. unfold cueOffTable in *.
  destruct (eightIndex g) as [k|] eqn:E8.
  { destruct (CheckPockets_eight g k E8) as (Hst & _). rewrite Hst.
    unfold eightVerdict.
    destruct (groupCleared (player_at (players g) (currentPlayer g))); discriminate. }
  destruct (CheckPockets_no_eight g E8) as (_ & _ & Hst & _ & Hb & _).
  rewrite Hst, (Hb 0%nat). clear Hb Hst. unfold cueSinks.
  destruct (sinks (balls g) 0) eqn:Es0.
  - intros _. rewrite scanned_hit; [|unfold MAX_BALLS; lia|exact Es0].
    unfold sinks in Es0. destruct (balls g !! 0%nat); [reflexivity|discriminate Es0].
  - intros Hs. unfold scanned. rewrite Es0, andb_false_r. exact (IH Hs).
Qed.

Lemma HandleInput_scratch (inp : Input F) g :
  keyR inp = false -> state (HandleInput inp g) = GAME_SCRATCH ->
  state g = GAME_SCRATCH /\ balls (HandleInput inp g) = balls g.
Proof.
  intros HR Hs.
  destruct (HandleInput_cases inp g HR)
    as [[Hb' Hs']|[(_ & _ & _ & Hp)|(_ & _ & _ & Hs' & _)]].
  - split; [by rewrite <- Hs'|exact Hb'].
  - rewrite Hp in Hs. discriminate Hs.
  - rewrite Hs' in Hs. discriminate Hs.
Qed.

Lemma scanEntry_cueOffTable (inp : Input F) g :
  cueOffTable (recoilStep (HandleInput inp g)) = true ->
  cueOffTable (scanEntry inp g) = true.
Proof.
  unfold cueOffTable.
  destruct (balls (recoilStep (HandleInput inp g)) !! 0%nat) as [b0|] eqn:E0;
    [|discriminate].
  intros Hp. by rewrite (scanEntry_pocketed inp g 0 b0 E0 Hp).
Qed.

Lemma scanEntry_state (inp : Input F) g :
  state (scanEntry inp g) = state (HandleInput inp g).
Proof. unfold scanEntry. cbn [state CheckCollisions moveBalls set_balls]. apply recoilStep_state. Qed.

Lemma cueOffTable_balls g g' : balls g' = balls g -> cueOffTable g' = cueOffTable g.
Proof. unfold cueOffTable. by intros ->. Qed.

(** The cue ball is off the table whenever the game waits for a placement. *)
Lemma scratch_cue_UpdateGame (inp : Input F) g :
  (state g = GAME_SCRATCH -> cueOffTable g = true) ->
  state (UpdateGame inp g) = GAME_SCRATCH -> cueOffTable (UpdateGame inp g) = true.
Proof.
  intros IH. destruct (keyR inp) eqn:HR.
  { rewrite UpdateGame_reset by exact HR. intros Hs. discriminate Hs. }
  rewrite UpdateGame_scanEntry. cbv zeta.
  destruct (_ || _) eqn:Ephys.
  2:{ intros Hs. apply orb_false_elim in Ephys as [_ E2].
      apply bool_decide_eq_false in E2. destruct (E2 Hs). }
  rewrite settle_state, (cueOffTable_balls _ _ (settle_balls _)).
  apply CheckPockets_scratch_cue.
  rewrite scanEntry_state. intros Hs'.
  destruct (HandleInput_scratch inp g HR Hs') as [Hsg Hbg].
  apply scanEntry_cueOffTable.
  rewrite (cueOffTable_balls g (recoilStep (HandleInput inp g))).
  - exact (IH Hsg).
  - rewrite recoilStep_balls. exact Hbg.
Qed.

Lemma scratch_cue_reachable g :
  reachable g -> state g = GAME_SCRATCH -> cueOffTable g = true.
Proof.
  induction 1 as [|inp g _ IH].
  - intros Hs. discriminate Hs.
  - apply scratch_cue_UpdateGame. exact IH.
Qed.

(** X7. In every state of an execution in which the game waits for the cue
    ball to be placed ([GAME_SCRATCH]), the cue ball is pocketed. *)
Theorem scratch_means_cue_off_table g :
  reachable g -> state g = GAME_SCRATCH ->
  exists b0, balls g !! 0%nat = Some b0 /\ Ball.pocketed b0 = true.
Proof.
  intros Hr Hs. pose proof (scratch_cue_reachable g Hr Hs) as Hc.
  unfold cueOffTable in Hc.
  destruct (balls g !! 0%nat) as [b0|]; [|discriminate Hc].
  exists b0. split; [reflexivity|exact Hc].
Qed.

Lemma scanEntry_currentPlayer (inp : Input F) g :
  currentPlayer (scanEntry inp g) = currentPlayer (HandleInput inp g).
Proof.
  unfold scanEntry. cbn [currentPlayer CheckCollisions moveBalls set_balls].
  apply recoilStep_currentPlayer.
Qed.

Lemma scanEntry_players (inp : Input F) g :
  players (scanEntry inp g) = players (HandleInput inp g).
Proof.
  unfold scanEntry. cbn [players CheckCollisions moveBalls set_balls].
  apply recoilStep_players.
Qed.

Lemma cueOffTable_cueSinks g : cueOffTable g = true -> cueSinks g = false.
Proof.
  unfold cueOffTable, cueSinks, sinks.
  destruct (balls g !! 0%nat) as [b0|]; [|done]. by intros ->.
Qed.

(** In [GAME_SCRATCH] a frame that brings no valid click leaves the table
    to [HandleInput] as it is. *)
Lemma HandleInput_no_placement (inp : Input F) g :
  state g = GAME_SCRATCH -> keyR inp = false ->
  mousePressed inp && validPlacement (mousePos inp) = false ->
  balls (HandleInput inp g) = balls g /\ state (HandleInput inp g) = GAME_SCRATCH.
Proof.
  intros Hs HR Hnp. unfold HandleInput. rewrite HR, (bool_decide_eq_true_2 _ Hs).
  destruct (mousePressed inp); [|by split].
  cbn [andb] in Hnp. rewrite Hnp. by split.
Qed.


End Frame.
End UpdatedExtra.

(** ** The frame properties on the tables of the executions above *)

Module FrameWitnesses.
Import Updated Tables.

(** Ball 10 after it has dropped, one frame later. *)
Lemma pocketed_object_ball_stays_witness :
  exists b, balls stripeDownTable !! 10%nat = Some b /\ Ball.pocketed b = true /\
            balls (UpdateGame idle stripeDownTable) !! 10%nat = Some b.
Proof.
  eexists. split; [vm_compute; reflexivity|]. split; [reflexivity|].
  apply UpdatedExtra.pocketed_object_ball_stays;
    [reflexivity|discriminate|vm_compute; reflexivity|reflexivity].
Defined.

(** The table after the scratching break. *)
Lemma rack_identities_invariant_witness :
  reachable scratchTable /\ length (balls scratchTable) = MAX_BALLS /\
  map identity (balls scratchTable) = map identity (ResetBalls (F:=binary32)).
Proof.
  split; [apply Scenarios.reachable_scratchTable|].
  destruct (UpdatedExtra.rack_identities_invariant scratchTable
              Scenarios.reachable_scratchTable) as (Hl & Hm & _).
  split; [exact Hl|exact Hm].
Defined.

(** The break under way: the balls move and the flag says so. *)
Lemma ballsMoving_flag_faithful_witness :
  AreBallsMoving (InitGame (F:=binary32)) = false /\ reachable cornerApproach /\
  ballsMoving cornerApproach = true /\
  ballsMoving cornerApproach = AreBallsMoving cornerApproach.
Proof.
  assert (H0 : AreBallsMoving (InitGame (F:=binary32)) = false) by (vm_compute; reflexivity).
  split; [exact H0|]. split; [apply Scenarios.reachable_cornerApproach|].
  split; [reflexivity|].
  apply (UpdatedExtra.ballsMoving_flag_faithful cornerApproach H0
           Scenarios.reachable_cornerApproach).
Defined.

(** The frame of the scratch: the cue ball goes down and the turn passes,
    once. *)
Lemma turn_passes_at_most_once_witness :
  keyR idle = false /\ eightIndex (scanEntry idle cornerApproach) = None /\
  cueSinks (scanEntry idle cornerApproach) = true /\
  currentPlayer (UpdateGame idle cornerApproach) = 1 - currentPlayer cornerApproach.
Proof.
  assert (H8 : eightIndex (scanEntry idle cornerApproach) = None) by (vm_compute; reflexivity).
  assert (Hc : cueSinks (scanEntry idle cornerApproach) = true) by (vm_compute; reflexivity).
  split; [reflexivity|]. split; [exact H8|]. split; [exact Hc|].
  pose proof (UpdatedExtra.turn_passes_at_most_once idle cornerApproach eq_refl) as Ht.
  cbv zeta in Ht. rewrite H8, Hc in Ht.
  change (state (recoilStep (HandleInput idle cornerApproach))) with GAME_PLAYING in Ht.
  exact Ht.
Defined.

Lemma scratch_means_cue_off_table_witness :
  reachable scratchTable /\ state scratchTable = GAME_SCRATCH /\
  exists b0, balls scratchTable !! 0%nat = Some b0 /\ Ball.pocketed b0 = true.
Proof.
  split; [apply Scenarios.reachable_scratchTable|]. split; [reflexivity|].
  apply (UpdatedExtra.scratch_means_cue_off_table scratchTable
           Scenarios.reachable_scratchTable eq_refl).
Defined.



End FrameWitnesses.
